(** * myplace_reg: the displayed place of one competitor in a cohort

    A shallow embedding of [src/compute_place.py] (the batch program) and of
    [src/app.py] (the HTTP service), and the properties of the rank
    computation and of the fetch cache that the design document states.

    Python values are modelled as follows.
    - [int] is [Z]; [bool] is [bool]; [float] is the kernel's binary64
      [float] (IEEE 754, round to nearest even, exactly CPython's).
    - [str] is the list of its Unicode code points.
    - A row of the feed is a JSON object read through [row.get(key, default)]
      for five keys only; it is a record of five optional fields, each of
      the JSON type the feed documents ([name] a string, [form] an integer,
      [sumRank] a number, [disqual] and [automatic] booleans).  [None] is
      an absent key.  A key that holds JSON null or a value of another
      type is outside this model; on such a [sumRank] the [float] of the
      sort key would raise [TypeError] or [ValueError].
    - An exception is a [Raise] in the [result] type. *)

From Stdlib Require Import ZArith NArith List Bool Lia Floats String Ascii.
From Stdlib Require Import Permutation Sorted.
Import ListNotations.

Local Open Scope Z_scope.

(** ** Python values and the builtins the program calls *)

Module Py.

(** A Python [str]: its code points. *)
Definition str := list N.

(** The code points of a UTF-8 byte sequence (well-formed input assumed;
    used to write string literals). *)
Fixpoint utf8_decode (bs : list N) (need : nat) (acc : N) : str :=
  match bs with
  | [] => []
  | b :: rest =>
      match need with
      | O =>
          if (b <? 128)%N then b :: utf8_decode rest 0 0%N
          else if (b <? 224)%N then utf8_decode rest 1 (b - 192)%N
          else if (b <? 240)%N then utf8_decode rest 2 (b - 224)%N
          else utf8_decode rest 3 (b - 240)%N
      | S O => (acc * 64 + (b - 128))%N :: utf8_decode rest 0 0%N
      | S n => utf8_decode rest n (acc * 64 + (b - 128))%N
      end
  end.

Definition u (s : string) : str :=
  utf8_decode (map N_of_ascii (list_ascii_of_string s)) 0 0%N.

Definition space : N := 32%N.

(** [str.isspace] on one code point: the code points CPython's
    [_PyUnicode_IsWhitespace] accepts. *)
Definition is_space (c : N) : bool :=
  ((9 <=? c) && (c <=? 13) || (28 <=? c) && (c <=? 32)
   || (c =? 133) || (c =? 160) || (c =? 5760)
   || (8192 <=? c) && (c <=? 8202)
   || (c =? 8232) || (c =? 8233) || (c =? 8239) || (c =? 8287)
   || (c =? 12288))%N.

(** [str.lower] on one code point, for the capitals U+0041-005A (Basic
    Latin), U+00C0-00DE (Latin-1) and U+0400-042F (the Russian and the
    other basic Cyrillic capitals), the alphabets of the feed's names.
    Every other code point is left as it is; [str.lower] also maps
    capitals outside these ranges (U+0490 and U+04D8 among them), and on
    names with such letters this function is not [str.lower]. *)
Definition lower_cp (c : N) : N :=
  if ((65 <=? c) && (c <=? 90))%N then (c + 32)%N
  else if ((192 <=? c) && (c <=? 222) && negb (c =? 215))%N then (c + 32)%N
  else if ((1024 <=? c) && (c <=? 1039))%N then (c + 80)%N
  else if ((1040 <=? c) && (c <=? 1071))%N then (c + 32)%N
  else c.

Definition lower (s : str) : str := map lower_cp s.

Fixpoint lstrip (s : str) : str :=
  match s with
  | [] => []
  | c :: rest => if is_space c then lstrip rest else s
  end.

(** [s.strip()] *)
Definition strip (s : str) : str := rev (lstrip (rev (lstrip s))).

(** Whether [s] is empty or begins with whitespace. *)
Definition at_gap (s : str) : bool :=
  match s with
  | [] => true
  | c :: _ => is_space c
  end.

(** [s.split()]: the maximal runs of non-whitespace code points. *)
Fixpoint split (s : str) : list str :=
  match s with
  | [] => []
  | c :: rest =>
      let ws := split rest in
      if is_space c then ws
      else
        match ws with
        | w :: ws' => if at_gap rest then [c] :: ws else (c :: w) :: ws'
        | [] => [[c]]
        end
  end.

(** [sep.join(words)] *)
Fixpoint join (sep : str) (words : list str) : str :=
  match words with
  | [] => []
  | [w] => w
  | w :: ws => w ++ sep ++ join sep ws
  end.

(** [a == b] on strings. *)
Fixpoint str_eqb (a b : str) : bool :=
  match a, b with
  | [], [] => true
  | x :: a', y :: b' => (x =? y)%N && str_eqb a' b'
  | _, _ => false
  end.

(** [a < b] on strings: lexicographic on code points. *)
Fixpoint str_ltb (a b : str) : bool :=
  match a, b with
  | _, [] => false
  | [], _ :: _ => true
  | x :: a', y :: b' => (x <? y)%N || (x =? y)%N && str_ltb a' b'
  end.

(** [s.startswith(p)] *)
Fixpoint startswith (s p : str) {struct p} : bool :=
  match p, s with
  | [], _ => true
  | _ :: _, [] => false
  | y :: p', x :: s' => (x =? y)%N && startswith s' p'
  end.

(** Exceptions the two programs can raise. *)
Inductive exn : Type :=
| OverflowError
| ValueError
| RequestException
| HTTPError
| JSONDecodeError.

Inductive result (A : Type) : Type :=
| Ok (a : A)
| Raise (e : exn).

Arguments Ok {A} a.
Arguments Raise {A} e.

Definition bind {A B : Type} (m : result A) (k : A -> result B) : result B :=
  match m with
  | Ok a => k a
  | Raise e => Raise e
  end.

(** A JSON number as [json.loads] returns it. *)
Inductive number : Type :=
| NInt (z : Z)
| NFloat (f : float).

(** [float(n)] of an [int]: correctly rounded, [OverflowError] when the
    integer is too large for a binary64. *)
Definition float_of_int (z : Z) : result float :=
  match binary_normalize prec emax z 0 false with
  | S754_infinity _ => Raise OverflowError
  | sf => Ok (SF2Prim sf)
  end.

(** [float(n)] *)
Definition py_float (n : number) : result float :=
  match n with
  | NInt z => float_of_int z
  | NFloat f => Ok f
  end.

(** [int(b)] of a [bool]. *)
Definition int_of_bool (b : bool) : Z := if b then 1 else 0.

(** [f < z] for a float and an int: CPython compares the exact values. *)
Definition float_lt_int (f : float) (z : Z) : bool :=
  match Prim2SF f with
  | S754_nan => false
  | S754_infinity s => s
  | S754_zero _ => 0 <? z
  | S754_finite s m e =>
      let v := cond_Zopp s (Z.pos m) in
      if 0 <=? e then v * 2 ^ e <? z else v <? z * 2 ^ (- e)
  end.

(** A sort key: the tuple [(float, int, int, int, str)] both programs
    build. *)
Definition key : Type := float * Z * Z * Z * str.

(** [k1 < k2] on such tuples: the first position where the items are not
    [==] decides, by [<] on the items there. *)
Definition key_lt (k1 k2 : key) : bool :=
  let '(f1, d1, a1, c1, n1) := k1 in
  let '(f2, d2, a2, c2, n2) := k2 in
  if negb (f1 =? f2)%float then (f1 <? f2)%float
  else if negb (d1 =? d2) then d1 <? d2
  else if negb (a1 =? a2) then a1 <? a2
  else if negb (c1 =? c2) then c1 <? c2
  else if negb (str_eqb n1 n2) then str_ltb n1 n2
  else false.

Section Sort.
Context {K A : Type}.
Variable lt : K -> K -> bool.

(** The place of a new element in a sorted run: after every element that
    is smaller, before the first one that is not. *)
Fixpoint insert (x : K * A) (l : list (K * A)) : list (K * A) :=
  match l with
  | [] => [x]
  | y :: l' => if lt (fst y) (fst x) then y :: insert x l' else x :: y :: l'
  end.

Fixpoint sort_pairs (l : list (K * A)) : list (K * A) :=
  match l with
  | [] => []
  | x :: l' => insert x (sort_pairs l')
  end.

Variable keyfunc : A -> result K.

(** The keys of [list.sort(key=keyfunc)], computed for the whole list
    before any comparison; the first exception ends the call. *)
Fixpoint decorate (l : list A) : result (list (K * A)) :=
  match l with
  | [] => Ok []
  | x :: l' =>
      bind (keyfunc x) (fun k =>
      bind (decorate l') (fun kl => Ok ((k, x) :: kl)))
  end.

(** [l.sort(key=keyfunc)]: CPython's sort is stable and compares keys
    with [<] only.  On keys that [<] orders as a strict weak order every
    stable sort returns the same list; it is written here as the stable
    insertion sort (which is also what CPython runs on a list of two).
    On keys that [<] does not order (a NaN among the scores) and a list
    longer than two, CPython's order can differ from this one. *)
Definition list_sort (l : list A) : result (list A) :=
  bind (decorate l) (fun kl => Ok (map snd (sort_pairs kl))).

End Sort.

End Py.

Import Py.

Notation "x <- m ;; k" := (bind m (fun x => k))
  (at level 61, m at next level, right associativity).

(** ** Rows of the feed *)

Record row : Type := Row {
  r_name : option str;
  r_form : option Z;
  r_sumRank : option number;
  r_disqual : option bool;
  r_automatic : option bool
}.

(** [row.get(key, default)] *)
Definition get {A : Type} (field : row -> option A) (default : A) (r : row) : A :=
  match field r with
  | Some v => v
  | None => default
  end.

(** [r.get("form") == form]: an absent key reads as [None], which equals
    no integer. *)
Definition form_is (form : Z) (r : row) : bool :=
  match r_form r with
  | Some z => z =? form
  | None => false
  end.

(** The three variables of the loop of [compute_place]. *)
Record state : Type := State {
  non_disqual_i : Z;
  last_non_disqual_sum_rank : float;
  last_place : option Z
}.

Definition initial : state := State 0 (-1)%float None.

(** [abs(sum_rank - last_non_disqual_sum_rank) > 1e-5]; the literal
    [1e-5] is the binary64 [0x1.4f8b588e368f1p-17], the float nearest to
    10^-5. *)
Definition changed (sum_rank last : float) : bool :=
  (0x1.4f8b588e368f1p-17 <? abs (sum_rank - last))%float.

(** Lines 50-52 of [compute_place.py], 129-131 of [app.py]: a row that
    is not disqualified and whose score changed shows a new place. *)
Definition show (st : state) (sum_rank : float) (disqual : bool) : state :=
  if changed sum_rank (last_non_disqual_sum_rank st) && negb disqual
  then State (non_disqual_i st) sum_rank (Some (non_disqual_i st + 1))
  else st.

(** Lines 58-59 of [compute_place.py], 137-138 of [app.py]. *)
Definition advance (st : state) (disqual : bool) : state :=
  if negb disqual
  then State (non_disqual_i st + 1) (last_non_disqual_sum_rank st) (last_place st)
  else st.

(** ** [src/compute_place.py] *)

Module ComputePlace.

Definition sort_key (r : row) : result key :=
  sum_rank <- py_float (get r_sumRank (NInt 0) r) ;;
  let disqual := get r_disqual false r in
  let automatic := get r_automatic false r in
  let form := get r_form (-1) r in
  let name := get r_name [] r in
  Ok ((- sum_rank)%float, int_of_bool disqual, int_of_bool automatic, form, name).

Definition norm (s : str) : str := join [space] (split (lower (strip s))).

(** Line 55: [row_name == target or row_name.startswith(target + " ")] *)
Definition name_match (row_name target : str) : bool :=
  str_eqb row_name target || startswith row_name (target ++ [space]).

(** The [for] loop, lines 46-61. *)
Fixpoint loop (target : str) (filtered : list row) (st : state)
  : result (option Z) :=
  match filtered with
  | [] => Ok None
  | r :: rest =>
      sum_rank <- py_float (get r_sumRank (NFloat 0) r) ;;
      let disqual := get r_disqual false r in
      let st' := show st sum_rank disqual in
      let row_name := norm (get r_name [] r) in
      if name_match row_name target then Ok (last_place st')
      else loop target rest (advance st' disqual)
  end.

Definition compute_place (rows : list row) (name : str) (form : Z)
  : result (option Z) :=
  let filtered := filter (form_is form) rows in
  filtered <- list_sort key_lt sort_key filtered ;;
  let target := norm name in
  loop target filtered initial.

End ComputePlace.

(** ** [src/app.py] *)

Module App.

(** The [Cache] dataclass. *)
Record Cache : Type := mkCache {
  fetched_at : float;
  data : option (list row)
}.

(** The module's [cache = Cache()]. *)
Definition empty_cache : Cache := mkCache 0 None.

(** [cache.data] where it is not [None]. *)
Definition get_data (cache : Cache) : list row :=
  match data cache with
  | Some rows => rows
  | None => []
  end.

(** What [r.json()] decodes: a list of rows, or some other JSON value. *)
Inductive json : Type :=
| JList (rows : list row)
| JOther.

(** What [requests.get(REG_API_URL, timeout=30)] meets: no answer (a
    network error or a timeout), or a response with its status code and
    its body decoded as JSON where it is JSON. *)
Inductive http : Type :=
| NoAnswer
| Response (status_code : Z) (body : option json).

(** [requests.get] *)
Definition requests_get (net : http) : result (Z * option json) :=
  match net with
  | NoAnswer => Raise RequestException
  | Response status_code body => Ok (status_code, body)
  end.

(** [r.raise_for_status()]: an [HTTPError] for a 4xx or 5xx status. *)
Definition raise_for_status (r : Z * option json) : result unit :=
  if (400 <=? fst r) && (fst r <? 600) then Raise HTTPError else Ok tt.

(** [r.json()] *)
Definition response_json (r : Z * option json) : result json :=
  match snd r with
  | Some j => Ok j
  | None => Raise JSONDecodeError
  end.

(** Lines 88-92: the request, the status check, the decoding and the
    check that the document is a list. *)
Definition download (net : http) : result (list row) :=
  r <- requests_get net ;;
  _ <- raise_for_status r ;;
  j <- response_json r ;;
  match j with
  | JList rows => Ok rows
  | JOther => Raise ValueError
  end.

(** Line 85: [cache.data is not None and
    (now - cache.fetched_at) < CACHE_TTL_SECONDS]. *)
Definition fresh (CACHE_TTL_SECONDS : Z) (cache : Cache) (now : float) : bool :=
  match data cache with
  | Some _ => float_lt_int (now - fetched_at cache)%float CACHE_TTL_SECONDS
  | None => false
  end.

(** [_fetch_data]: the global [cache] is passed in and out; [now] is what
    [time.time()] returns and [net] what the network does if asked. *)
Definition _fetch_data (CACHE_TTL_SECONDS : Z) (cache : Cache) (now : float)
  (net : http) : Cache * result (list row) :=
  if fresh CACHE_TTL_SECONDS cache now
  then (cache, Ok (get_data cache))
  else
    match download net with
    | Ok rows => (mkCache now (Some rows), Ok rows)
    | Raise e => (cache, Raise e)
    end.

Definition _sort_key (r : row) : result key :=
  let sum_rank := get r_sumRank (NInt 0) r in
  let disqual := get r_disqual false r in
  let automatic := get r_automatic false r in
  let form := get r_form (-1) r in
  let name := get r_name [] r in
  f <- py_float sum_rank ;;
  Ok ((- f)%float, int_of_bool disqual, int_of_bool automatic, form, name).

(** The [norm] that [_compute_place] defines for itself. *)
Definition norm (s : str) : str := join [space] (split (lower (strip s))).

(** The [for] loop, lines 123-140. *)
Fixpoint loop (target : str) (filtered : list row) (st : state)
  : result (option Z) :=
  match filtered with
  | [] => Ok None
  | r :: rest =>
      sum_rank <- py_float (get r_sumRank (NFloat 0) r) ;;
      let disqual := get r_disqual false r in
      let st' := show st sum_rank disqual in
      let row_name := norm (get r_name [] r) in
      if str_eqb row_name target || startswith row_name (target ++ [space])
      then Ok (last_place st')
      else loop target rest (advance st' disqual)
  end.

Definition _compute_place (rows : list row) (name : str) (form : Z)
  : result (option Z) :=
  let filtered := filter (form_is form) rows in
  filtered <- list_sort key_lt _sort_key filtered ;;
  let target := norm name in
  loop target filtered initial.

End App.

(** ** [src/app.py], the request handler *)

Module Handler.

(** What a response body says.  The bytes ([INDEX_HTML.encode],
    [json.dumps(...).encode]) and the message [str(e)] of an exception are
    not modelled: a body is the page, the payload dictionary, the
    exception that was caught, or the text [b"Not found"]. *)
Inductive document : Type :=
| IndexHtml
| PlacePayload (name : str) (form : Z) (place : option Z) (source : str)
| ErrorPayload (e : exn)
| NotFoundText.

(** What [_send] writes: the status line, the [Content-Type] and
    [Cache-Control] headers and the body ([Content-Length] is the length
    of the bytes and is left out with them). *)
Record response : Type := mkResponse {
  status : Z;
  content_type : str;
  cache_control : str;
  body : document
}.

Definition _send (status : Z) (body : document) (content_type : str)
  : response :=
  mkResponse status content_type (u "no-store") body.

(** [do_GET]: the module's settings are parameters, the global cache is
    passed in and out, [now] and [net] are as for [_fetch_data].
    [except Exception] catches every exception of [exn]. *)
Definition do_GET (REG_API_URL TARGET_NAME : str)
  (TARGET_FORM CACHE_TTL_SECONDS : Z) (path : str)
  (cache : App.Cache) (now : float) (net : App.http)
  : App.Cache * response :=
  if str_eqb path (u "/") || startswith path (u "/?")
  then (cache, _send 200 IndexHtml (u "text/html; charset=utf-8"))
  else if str_eqb path (u "/api/place")
  then
    let (cache', fetched) := App._fetch_data CACHE_TTL_SECONDS cache now net in
    match
      (rows <- fetched ;;
       place <- App._compute_place rows TARGET_NAME TARGET_FORM ;;
       Ok (PlacePayload TARGET_NAME TARGET_FORM place REG_API_URL))
    with
    | Ok payload =>
        (cache', _send 200 payload (u "application/json; charset=utf-8"))
    | Raise e =>
        (cache', _send 500 (ErrorPayload e)
                   (u "application/json; charset=utf-8"))
    end
  else (cache, _send 404 NotFoundText (u "text/plain; charset=utf-8")).

End Handler.

(** ** Notions the properties are stated with *)

Definition example_rows : list row :=
  [ Row (Some (u "A")) (Some 1) (Some (NInt 100)) None None;
    Row (Some (u "B")) (Some 1) (Some (NInt 100)) None None;
    Row (Some (u "C")) (Some 1) (Some (NInt 90)) (Some true) None;
    Row (Some (u "D")) (Some 1) (Some (NInt 80)) None None ].

(** The rows of a cohort in the order the loop walks them. *)
Definition sorted_cohort (rows : list row) (form : Z) : result (list row) :=
  list_sort key_lt ComputePlace.sort_key (filter (form_is form) rows).

(** The score the loop reads from a row. *)
Definition score (r : row) : result float :=
  py_float (get r_sumRank (NFloat 0) r).

(** Whether the loop stops at a row. *)
Definition matches (target : str) (r : row) : bool :=
  ComputePlace.name_match (ComputePlace.norm (get r_name [] r)) target.

(** [bool(row.get("disqual", False))] *)
Definition disqualified (r : row) : bool := get r_disqual false r.

(** The place a row shows when the loop reaches it in state [st]: the
    value of [last_place] at the name check. *)
Definition displayed (st : state) (r : row) : result (option Z) :=
  s <- score r ;; Ok (last_place (show st s (disqualified r))).

(** The state in which the loop leaves a row it does not stop at. *)
Definition after (st : state) (r : row) : result state :=
  s <- score r ;;
  Ok (advance (show st s (disqualified r)) (disqualified r)).

(** The state of the loop after rows it did not stop at. *)
Fixpoint walk (l : list row) (st : state) : result state :=
  match l with
  | [] => Ok st
  | r :: rest => st' <- after st r ;; walk rest st'
  end.

(** Two row lists that differ only by rows outside the cohort [form]:
    the second is the first with such rows inserted or removed. *)
Inductive differ_outside (form : Z) : list row -> list row -> Prop :=
| differ_nil : differ_outside form [] []
| differ_keep r l l' :
    differ_outside form l l' -> differ_outside form (r :: l) (r :: l')
| differ_insert r l l' :
    form_is form r = false ->
    differ_outside form l l' -> differ_outside form l (r :: l')
| differ_remove r l l' :
    form_is form r = false ->
    differ_outside form l l' -> differ_outside form (r :: l) l'.

(** Rows for the instances below: the example with a row of form 2 in
    front, and the example with a row of no form and a row of form 3
    put in. *)
Definition example_with_others_1 : list row :=
  Row (Some (u "C")) (Some 2) (Some (NInt 500)) None None :: example_rows.

Definition example_with_others_2 : list row :=
  [ Row (Some (u "A")) (Some 1) (Some (NInt 100)) None None;
    Row (Some (u "C")) None (Some (NInt 300)) None None;
    Row (Some (u "B")) (Some 1) (Some (NInt 100)) None None;
    Row (Some (u "C")) (Some 1) (Some (NInt 90)) (Some true) None;
    Row (Some (u "D")) (Some 1) (Some (NInt 80)) None None;
    Row (Some (u "C")) (Some 3) (Some (NFloat 1)) None None ].

(** One row of form 1 whose score is an integer of 310 digits. *)
Definition huge_score_rows : list row :=
  [ Row (Some (u "X")) (Some 1) (Some (NInt (10 ^ 309))) None None ].

(** One row of form 1 that scores -1. *)
Definition minus_one_rows : list row :=
  [ Row (Some (u "A")) (Some 1) (Some (NInt (-1))) None None ].

(** Three rows of form 1 scoring 1, 1 - 2^-17 and 1 - 2^-16: neighbours
    are 2^-17 < 1e-5 apart, the first and the last 2^-16 > 1e-5. *)
Definition drifting_rows : list row :=
  [ Row (Some (u "A")) (Some 1) (Some (NFloat 1)) None None;
    Row (Some (u "B")) (Some 1) (Some (NFloat 0.99999237060546875)) None None;
    Row (Some (u "C")) (Some 1) (Some (NFloat 0.9999847412109375)) None None ].

(** A row with each absent field other than [form] written out with
    the default the programs read for it. *)
Definition with_defaults (r : row) : row :=
  Row (Some (get r_name [] r)) (r_form r) (Some (get r_sumRank (NInt 0) r))
      (Some (get r_disqual false r)) (Some (get r_automatic false r)).

(** A row with an absent [form] written out as -1. *)
Definition with_form_default (r : row) : row :=
  Row (r_name r) (Some (get r_form (-1) r)) (r_sumRank r) (r_disqual r)
      (r_automatic r).

(** One row named "A" with no [form], and the same row with form -1. *)
Definition no_form_rows : list row :=
  [ Row (Some (u "A")) None (Some (NInt 5)) None None ].

Definition form_minus_one_rows : list row := map with_form_default no_form_rows.

(** A refresh attempt that fails: no answer from the network, a status
    that [raise_for_status] rejects (400 to 599, not every status other
    than 200), a body that is not JSON, or a JSON document that is not a
    list. *)
Definition refresh_fails (net : App.http) : bool :=
  match net with
  | App.NoAnswer => true
  | App.Response status_code body =>
      (400 <=? status_code) && (status_code <? 600)
      || match body with
         | Some (App.JList _) => false
         | _ => true
         end
  end.

(** A cache filled at time 1000 with the example rows. *)
Definition filled_cache : App.Cache := App.mkCache 1000 (Some example_rows).

(** Whether [s] begins with whitespace. *)
Definition starts_with_space (s : str) : bool :=
  match s with
  | [] => false
  | c :: _ => is_space c
  end.

(** Whether [s] is empty or ends with a code point that is not
    whitespace. *)
Fixpoint ends_clean (s : str) : bool :=
  match s with
  | [] => true
  | c :: rest =>
      match rest with
      | [] => negb (is_space c)
      | _ :: _ => ends_clean rest
      end
  end.

(** Every run of whitespace replaced by one space. *)
Fixpoint collapse (s : str) : str :=
  match s with
  | [] => []
  | c :: rest =>
      if is_space c
      then if starts_with_space rest then collapse rest
           else space :: collapse rest
      else c :: collapse rest
  end.

(** The normal form of a name in the words of the design document:
    trimmed, lowercased, whitespace runs collapsed to single spaces. *)
Definition spec_normalize (s : str) : str := collapse (lower (strip s)).

(** [<] on lists of integers, lexicographic. *)
Fixpoint lex_ltb (a b : list Z) : bool :=
  match a, b with
  | _, [] => false
  | [], _ :: _ => true
  | x :: a', y :: b' => (x <? y) || (x =? y) && lex_ltb a' b'
  end.

Fixpoint lex_eqb (a b : list Z) : bool :=
  match a, b with
  | [], [] => true
  | x :: a', y :: b' => (x =? y) && lex_eqb a' b'
  | _, _ => false
  end.

(** Three integers that order the floats that are not NaN as [<] and
    [==] do: the sign class, then exponent and mantissa (negated for a
    negative float); both zeros have the same three. *)
Definition rank (f : float) : list Z :=
  match Prim2SF f with
  | S754_zero _ => [0; 0; 0]
  | S754_infinity s => [if s then -2 else 2; 0; 0]
  | S754_nan => [3; 0; 0]
  | S754_finite s m e => if s then [-1; - e; Z.neg m] else [1; e; Z.pos m]
  end.

(** A sort key as a list of integers. *)
Definition code (k : key) : list Z :=
  let '(f, d, a, c, n) := k in rank f ++ [d; a; c] ++ map Z.of_N n.

(** The float of a key is not a NaN. *)
Definition ordered_key (k : key) : Prop :=
  let '(f, _, _, _, _) := k in is_nan f = false.

Definition signed_zero (f : float) : bool :=
  match Prim2SF f with
  | S754_zero _ => true
  | _ => false
  end.

(** Two floats that are [==] and not NaN: the same float, or two zeros. *)
Definition same_score (s s' : float) : Prop :=
  s = s' \/ (signed_zero s = true /\ signed_zero s' = true).

Definition same_state (st st' : state) : Prop :=
  non_disqual_i st = non_disqual_i st' /\
  same_score (last_non_disqual_sum_rank st) (last_non_disqual_sum_rank st') /\
  last_place st = last_place st'.

(** Two rows the loop cannot tell apart. *)
Definition alike (r r' : row) : Prop :=
  (exists s s', score r = Ok s /\ score r' = Ok s' /\ same_score s s') /\
  disqualified r = disqualified r' /\
  get r_name [] r = get r_name [] r'.

(** No row of the cohort has a NaN score. *)
Definition no_nan_scores (form : Z) (rows : list row) : Prop :=
  Forall (fun r => form_is form r = true ->
                   forall s, score r = Ok s -> is_nan s = false) rows.

(** Two rows of form 1, the first with a NaN score. *)
Definition nan_rows : list row :=
  [ Row (Some (u "A")) (Some 1) (Some (NFloat nan)) None None;
    Row (Some (u "B")) (Some 1) (Some (NFloat 1)) None None ].

(** The number of rows of a list that are not disqualified. *)
Definition count_ranked (l : list row) : Z :=
  Z.of_nat (List.length (filter (fun r => negb (disqualified r)) l)).

(** The state keeps its place, if it has one, between 1 and the count of
    rows that were not disqualified. *)
Definition place_in_range (st : state) : Prop :=
  0 <= non_disqual_i st /\
  forall p, last_place st = Some p -> 1 <= p <= non_disqual_i st.

(** Three rows of form 1 with the score 7: two disqualified, then one
    that is not. *)
Definition tied_rows : list row :=
  [ Row (Some (u "Z")) (Some 1) (Some (NFloat 7)) (Some true) None;
    Row (Some (u "A")) (Some 1) (Some (NInt 7)) (Some true) None;
    Row (Some (u "M")) (Some 1) (Some (NInt 7)) None None ].

(** The words of a name, in lower case. *)
Definition words (s : str) : list str := map lower (split s).

(** A word: not empty, and free of whitespace. *)
Definition word (w : str) : Prop :=
  w <> [] /\ Forall (fun c => is_space c = false) w.

(** A row whose name has three words, with blanks around them. *)
Definition ivanov_row : row :=
  Row (Some (u " Иванов Иван   Петрович ")) None None None None.

(** A row whose name is one blank, and a row named "A". *)
Definition blank_row : row := Row (Some (u " ")) None None None None.

Definition a_row : row := Row (Some (u "A")) None None None None.

(** * Properties *)

(** ** The worked example of the design document *)

(** C1: on the four rows A(100), B(100), C(90, disqualified), D(80) of
    form 1, the sorted order is A, B, C, D and both programs return place
    1 for the target "C". *)
Theorem example_place_of_C :
  sorted_cohort example_rows 1 = Ok example_rows /\
  ComputePlace.compute_place example_rows (u "C") 1 = Ok (Some 1) /\
  App._compute_place example_rows (u "C") 1 = Ok (Some 1).
Proof. repeat split; vm_compute; reflexivity. Qed.

(** ** The two copies of the algorithm *)

Lemma decorate_ext {K A : Type} (f g : A -> result K) (l : list A) :
  (forall x, f x = g x) -> decorate f l = decorate g l.
Proof.
  intros E. induction l as [|x l IH]; simpl; [reflexivity|].
  rewrite E, IH. reflexivity.
Qed.

Lemma sort_key_same (r : row) : App._sort_key r = ComputePlace.sort_key r.
Proof. reflexivity. Qed.

Lemma norm_same (s : str) : App.norm s = ComputePlace.norm s.
Proof. reflexivity. Qed.

Lemma loop_same (target : str) (filtered : list row) (st : state) :
  App.loop target filtered st = ComputePlace.loop target filtered st.
Proof.
  revert st. induction filtered as [|r rest IH]; intros st; simpl.
  - reflexivity.
  - destruct (py_float (get r_sumRank (NFloat 0) r)) as [f|e]; simpl.
    + rewrite norm_same. unfold ComputePlace.name_match.
      destruct (_ || _); [reflexivity | apply IH].
    + reflexivity.
Qed.

(** C2: the rank algorithm of [app.py] and that of [compute_place.py] are
    the same function: on every row list, target name and target form
    they return the same place or raise the same exception. *)
Theorem two_copies_agree (rows : list row) (name : str) (form : Z) :
  App._compute_place rows name form = ComputePlace.compute_place rows name form.
Proof.
  unfold App._compute_place, ComputePlace.compute_place, list_sort.
  rewrite (decorate_ext _ _ _ sort_key_same).
  destruct (decorate ComputePlace.sort_key _) as [kl|e]; simpl.
  - rewrite norm_same. apply loop_same.
  - reflexivity.
Qed.

(** ** Rows outside the cohort *)

Lemma differ_outside_filter (form : Z) (l l' : list row) :
  differ_outside form l l' ->
  filter (form_is form) l = filter (form_is form) l'.
Proof.
  induction 1 as [|r l l' _ IH|r l l' Hr _ IH|r l l' Hr _ IH]; simpl.
  - reflexivity.
  - rewrite IH. reflexivity.
  - rewrite Hr. exact IH.
  - rewrite Hr. exact IH.
Qed.

(** C6: the place is computed per cohort: inserting or removing rows
    whose form is not the target form (an absent form included) changes
    neither the place returned nor the exception raised. *)
Theorem cohort_independent (rows rows' : list row) (name : str) (form : Z) :
  differ_outside form rows rows' ->
  ComputePlace.compute_place rows name form
  = ComputePlace.compute_place rows' name form.
Proof.
  intros H. unfold ComputePlace.compute_place.
  rewrite (differ_outside_filter _ _ _ H). reflexivity.
Qed.

Lemma cohort_independent_witness :
  differ_outside 1 example_with_others_1 example_with_others_2 /\
  ComputePlace.compute_place example_with_others_1 (u "C") 1
  = ComputePlace.compute_place example_with_others_2 (u "C") 1.
Proof.
  assert (H : differ_outside 1 example_with_others_1 example_with_others_2).
  { apply differ_remove; [reflexivity|].
    apply differ_keep.
    apply differ_insert; [reflexivity|].
    do 3 apply differ_keep.
    apply differ_insert; [reflexivity|].
    apply differ_nil. }
  split; [exact H | exact (cohort_independent _ _ (u "C") 1 H)].
Defined.

(** ** The sort: keys, membership *)

Lemma score_default (r : row) : py_float (get r_sumRank (NInt 0) r) = score r.
Proof.
  unfold score, get. destruct (r_sumRank r); reflexivity.
Qed.

Lemma sort_key_score (r : row) :
  ComputePlace.sort_key r =
  (f <- score r ;;
   Ok ((- f)%float, int_of_bool (get r_disqual false r),
       int_of_bool (get r_automatic false r), get r_form (-1) r,
       get r_name [] r)).
Proof. unfold ComputePlace.sort_key. rewrite score_default. reflexivity. Qed.

Lemma py_float_raise (n : number) (e : exn) :
  py_float n = Raise e -> e = OverflowError.
Proof.
  destruct n as [z|f]; simpl; [|discriminate].
  unfold float_of_int.
  destruct (binary_normalize prec emax z 0 false); congruence.
Qed.

Lemma score_raise (r : row) (e : exn) : score r = Raise e -> e = OverflowError.
Proof. apply py_float_raise. Qed.

Section Decorate.
Context {K A : Type}.
Variable f : A -> result K.

Lemma decorate_ok (l : list A) (kl : list (K * A)) :
  decorate f l = Ok kl ->
  map snd kl = l /\ Forall (fun p => f (snd p) = Ok (fst p)) kl.
Proof.
  revert kl. induction l as [|x l IH]; simpl; intros kl H.
  - injection H as <-. split; constructor.
  - destruct (f x) as [k|e] eqn:Ex; simpl in H; [|discriminate].
    destruct (decorate f l) as [kl'|e]; simpl in H; [|discriminate].
    injection H as <-. destruct (IH _ eq_refl) as [IH1 IH2].
    split; simpl; [f_equal; exact IH1 | constructor; assumption].
Qed.

Lemma decorate_raise (l : list A) (e : exn) :
  decorate f l = Raise e -> exists x, In x l /\ f x = Raise e.
Proof.
  induction l as [|x l IH]; simpl; intros H; [discriminate|].
  destruct (f x) as [k|e'] eqn:Ex; simpl in H.
  - destruct (decorate f l) as [kl'|e']; simpl in H; [discriminate|].
    injection H as <-. destruct (IH eq_refl) as (y & Hy & Ey).
    exists y. split; [right|]; assumption.
  - injection H as <-. exists x. split; [left; reflexivity | exact Ex].
Qed.

Lemma decorate_total (l : list A) :
  Forall (fun x => exists k, f x = Ok k) l -> exists kl, decorate f l = Ok kl.
Proof.
  induction 1 as [|x l [k Hk] _ [kl IH]]; simpl.
  - eexists; reflexivity.
  - rewrite Hk, IH. simpl. eexists; reflexivity.
Qed.

Variable lt : K -> K -> bool.

Lemma insert_perm (x : K * A) (l : list (K * A)) :
  Permutation (insert lt x l) (x :: l).
Proof.
  induction l as [|y l IH]; simpl; [reflexivity|].
  destruct (lt (fst y) (fst x)); [|reflexivity].
  rewrite IH. apply perm_swap.
Qed.

Lemma sort_pairs_perm (l : list (K * A)) : Permutation (sort_pairs lt l) l.
Proof.
  induction l as [|x l IH]; simpl; [reflexivity|].
  rewrite insert_perm. constructor. exact IH.
Qed.

Lemma list_sort_ok (l s : list A) :
  list_sort lt f l = Ok s ->
  Permutation s l /\ Forall (fun x => exists k, f x = Ok k) l.
Proof.
  unfold list_sort. intros H.
  destruct (decorate f l) as [kl|e] eqn:E; simpl in H; [|discriminate].
  injection H as <-. destruct (decorate_ok _ _ E) as [E1 E2].
  split.
  - rewrite <- E1. apply Permutation_map, sort_pairs_perm.
  - rewrite <- E1. rewrite Forall_map.
    eapply Forall_impl; [|exact E2]. intros p Hp. eexists; exact Hp.
Qed.

Lemma list_sort_raise (l : list A) (e : exn) :
  list_sort lt f l = Raise e -> exists x, In x l /\ f x = Raise e.
Proof.
  unfold list_sort. intros H.
  destruct (decorate f l) as [kl|e'] eqn:E; simpl in H; [discriminate|].
  injection H as <-. exact (decorate_raise _ _ E).
Qed.

End Decorate.

Lemma sort_key_ok_score (r : row) :
  (exists k, ComputePlace.sort_key r = Ok k) <-> (exists f, score r = Ok f).
Proof.
  rewrite sort_key_score.
  destruct (score r) as [f|e]; simpl; split; intros [x Hx];
    try discriminate; eexists; reflexivity.
Qed.

Lemma sorted_cohort_ok (rows l : list row) (form : Z) :
  sorted_cohort rows form = Ok l ->
  Permutation l (filter (form_is form) rows) /\
  Forall (fun r => exists f, score r = Ok f) l.
Proof.
  intros H. destruct (list_sort_ok _ _ _ _ H) as [P F]. split; [exact P|].
  eapply Permutation_Forall; [symmetry; exact P|].
  eapply Forall_impl; [|exact F]. intros r. apply sort_key_ok_score.
Qed.

Lemma sorted_cohort_raise (rows : list row) (form : Z) (e : exn) :
  sorted_cohort rows form = Raise e ->
  e = OverflowError /\
  exists r, In r rows /\ form_is form r = true /\ score r = Raise OverflowError.
Proof.
  intros H. destruct (list_sort_raise _ _ _ _ H) as (r & Hr & Er).
  rewrite sort_key_score in Er.
  destruct (score r) as [f|e'] eqn:Es; simpl in Er; [discriminate|].
  injection Er as <-. pose proof (score_raise _ _ Es) as ->.
  apply filter_In in Hr. split; [reflexivity|]. exists r. tauto.
Qed.

Lemma compute_place_sorted (rows : list row) (name : str) (form : Z) :
  ComputePlace.compute_place rows name form =
  (l <- sorted_cohort rows form ;;
   ComputePlace.loop (ComputePlace.norm name) l initial).
Proof. reflexivity. Qed.

(** ** A target that is not in the cohort *)

Lemma loop_no_match (target : str) (l : list row) (st : state) :
  Forall (fun r => matches target r = false) l ->
  Forall (fun r => exists f, score r = Ok f) l ->
  ComputePlace.loop target l st = Ok None.
Proof.
  intros Hm. revert st. induction Hm as [|r l Hr _ IH]; intros st Hs; simpl.
  - reflexivity.
  - inversion Hs as [|? ? [f Hf] Hs']; subst.
    unfold score in Hf. rewrite Hf. simpl.
    unfold matches in Hr. rewrite Hr. apply IH, Hs'.
Qed.

(** No row of [huge_score_rows] matches "Z", and yet the call does not
    return not-found: [float] raises on the score while the keys are
    computed. *)
Lemma not_found_as_stated_fails :
  forallb (fun r => negb (form_is 1 r && matches (ComputePlace.norm (u "Z")) r))
    huge_score_rows = true /\
  ComputePlace.compute_place huge_score_rows (u "Z") 1 = Raise OverflowError.
Proof. split; vm_compute; reflexivity. Qed.

Lemma decorate_first_raise {K A : Type} (f : A -> result K)
  (pre post : list A) (x : A) (e : exn) :
  Forall (fun y => exists k, f y = Ok k) pre -> f x = Raise e ->
  decorate f (pre ++ x :: post) = Raise e.
Proof.
  intros Hpre Hx. induction Hpre as [|y pre [k Hk] _ IH]; simpl.
  - rewrite Hx. reflexivity.
  - rewrite Hk. simpl. rewrite IH. reflexivity.
Qed.

Lemma score_raise_int (r : row) (e : exn) :
  score r = Raise e ->
  exists z, r_sumRank r = Some (NInt z) /\ e = OverflowError.
Proof.
  intros H. pose proof (score_raise _ _ H) as ->.
  unfold score, get in H. destruct (r_sumRank r) as [[z|f]|]; try discriminate.
  exists z. split; reflexivity.
Qed.

(** C8, amended: when no row is both of the target form and a match of
    the target name, [compute_place] returns not-found exactly when the
    score of every row of the target form converts to a float.  When one
    does not, the call returns nothing: it raises, while the sort keys
    are computed, the exception [float] raises on the first such row in
    input order (for a number, [OverflowError]: an integer too large for
    a float).  When no row is of the target form it returns not-found. *)
Theorem not_found_or_conversion_error (rows : list row) (name : str)
  (form : Z) :
  Forall (fun r => form_is form r = true ->
                   matches (ComputePlace.norm name) r = false) rows ->
  (ComputePlace.compute_place rows name form = Ok None <->
   Forall (fun r => form_is form r = true -> exists f, score r = Ok f) rows) /\
  (forall pre r post e,
     filter (form_is form) rows = pre ++ r :: post ->
     Forall (fun q => exists f, score q = Ok f) pre ->
     score r = Raise e ->
     ComputePlace.compute_place rows name form = Raise e /\
     exists z, r_sumRank r = Some (NInt z) /\ e = OverflowError) /\
  (forall e,
     ComputePlace.compute_place rows name form = Raise e ->
     exists r, In r rows /\ form_is form r = true /\ score r = Raise e) /\
  (ComputePlace.compute_place rows name form = Ok None \/
   exists e, ComputePlace.compute_place rows name form = Raise e) /\
  (Forall (fun r => form_is form r = false) rows ->
   ComputePlace.compute_place rows name form = Ok None).
Proof.
  intros Hm.
  assert (Hsorted : forall l, sorted_cohort rows form = Ok l ->
            ComputePlace.compute_place rows name form = Ok None).
  { intros l Hl. rewrite compute_place_sorted, Hl. simpl.
    destruct (sorted_cohort_ok _ _ _ Hl) as [P F].
    apply loop_no_match; [|exact F].
    rewrite Forall_forall in *. intros r Hr.
    apply (Permutation_in _ P), filter_In in Hr. destruct Hr as [Hr Hf].
    exact (Hm r Hr Hf). }
  assert (Hraise : forall e, sorted_cohort rows form = Raise e ->
            ComputePlace.compute_place rows name form = Raise e).
  { intros e He. rewrite compute_place_sorted, He. reflexivity. }
  assert (Hconv : Forall (fun r => form_is form r = true ->
                                   exists f, score r = Ok f) rows ->
            ComputePlace.compute_place rows name form = Ok None).
  { intros Hs. destruct (sorted_cohort rows form) as [l|e] eqn:E.
    - exact (Hsorted l eq_refl).
    - destruct (sorted_cohort_raise _ _ _ E) as (_ & r & Hr & Hf & Er).
      rewrite Forall_forall in Hs. destruct (Hs r Hr Hf) as [f Ef].
      congruence. }
  split; [|split; [|split; [|split]]].
  - split; [|exact Hconv]. intros Hnone.
    destruct (sorted_cohort rows form) as [l|e] eqn:E.
    + destruct (sorted_cohort_ok _ _ _ E) as [P F].
      rewrite Forall_forall in *. intros r Hr Hf. apply F.
      apply (Permutation_in _ (Permutation_sym P)), filter_In. tauto.
    + rewrite (Hraise e eq_refl) in Hnone. discriminate.
  - intros pre r post e Hsplit Hpre Hr. split; [|exact (score_raise_int _ _ Hr)].
    apply Hraise. unfold sorted_cohort, list_sort. rewrite Hsplit.
    rewrite (decorate_first_raise _ pre post r e).
    + reflexivity.
    + eapply Forall_impl; [|exact Hpre]. intros q. apply sort_key_ok_score.
    + rewrite sort_key_score, Hr. reflexivity.
  - intros e He. destruct (sorted_cohort rows form) as [l|e'] eqn:E.
    + rewrite (Hsorted l eq_refl) in He. discriminate.
    + rewrite (Hraise e' eq_refl) in He. injection He as <-.
      destruct (sorted_cohort_raise _ _ _ E) as (-> & Hex). exact Hex.
  - destruct (sorted_cohort rows form) as [l|e] eqn:E.
    + left. exact (Hsorted l eq_refl).
    + right. exists e. exact (Hraise e eq_refl).
  - intros He. apply Hconv. eapply Forall_impl; [|exact He].
    simpl. intros r H1 H2. congruence.
Qed.

Lemma not_found_or_conversion_error_witness :
  Forall (fun r => form_is 1 r = true ->
                   matches (ComputePlace.norm (u "Z")) r = false) example_rows /\
  ComputePlace.compute_place example_rows (u "Z") 1 = Ok None.
Proof.
  assert (H : Forall (fun r => form_is 1 r = true ->
                matches (ComputePlace.norm (u "Z")) r = false) example_rows).
  { repeat constructor. }
  split; [exact H|].
  apply (proj2 (proj1 (not_found_or_conversion_error example_rows (u "Z") 1 H))).
  repeat constructor; intros _; eexists; vm_compute; reflexivity.
Defined.

(** ** The loop, row by row *)

Lemma loop_at_match (target : str) (r : row) (rest : list row) (st : state) :
  matches target r = true ->
  ComputePlace.loop target (r :: rest) st = displayed st r.
Proof.
  intros H. simpl. unfold displayed, score, disqualified.
  destruct (py_float _) as [s|e]; simpl; [|reflexivity].
  unfold matches in H. rewrite H. reflexivity.
Qed.

Lemma loop_past (target : str) (r : row) (rest : list row) (st : state) :
  matches target r = false ->
  ComputePlace.loop target (r :: rest) st =
  (st' <- after st r ;; ComputePlace.loop target rest st').
Proof.
  intros H. simpl. unfold after, score, disqualified.
  destruct (py_float _) as [s|e]; simpl; [|reflexivity].
  unfold matches in H. rewrite H. reflexivity.
Qed.

Lemma loop_app (target : str) (pre rest : list row) (st : state) :
  Forall (fun r => matches target r = false) pre ->
  ComputePlace.loop target (pre ++ rest) st =
  (st' <- walk pre st ;; ComputePlace.loop target rest st').
Proof.
  intros H. revert st. induction H as [|r pre Hr _ IH]; intros st.
  - reflexivity.
  - rewrite <- app_comm_cons, loop_past by exact Hr. simpl.
    destruct (after st r) as [st'|e]; simpl; [apply IH | reflexivity].
Qed.

Lemma walk_app (l1 l2 : list row) (st : state) :
  walk (l1 ++ l2) st = (st' <- walk l1 st ;; walk l2 st').
Proof.
  revert st. induction l1 as [|r l1 IH]; intros st; simpl; [reflexivity|].
  destruct (after st r) as [st'|e]; simpl; [apply IH | reflexivity].
Qed.

Lemma walk_total (l : list row) (st : state) :
  Forall (fun r => exists f, score r = Ok f) l -> exists st', walk l st = Ok st'.
Proof.
  intros H. revert st. induction H as [|r l [f Hf] _ IH]; intros st; simpl.
  - eexists; reflexivity.
  - unfold after. rewrite Hf. simpl. apply IH.
Qed.

(** The place returned for a target is the place shown by the first row
    of the sorted cohort that matches it. *)
Lemma compute_place_first_match (rows pre post : list row) (r : row)
  (name : str) (form : Z) :
  sorted_cohort rows form = Ok (pre ++ r :: post) ->
  Forall (fun q => matches (ComputePlace.norm name) q = false) pre ->
  matches (ComputePlace.norm name) r = true ->
  ComputePlace.compute_place rows name form =
  (st <- walk pre initial ;; displayed st r).
Proof.
  intros Hs Hpre Hr. rewrite compute_place_sorted, Hs. simpl.
  rewrite loop_app by exact Hpre.
  destruct (walk pre initial) as [st|e]; simpl; [|reflexivity].
  apply loop_at_match, Hr.
Qed.

Lemma walk_disqualified (l : list row) (st : state) :
  Forall (fun r => disqualified r = true) l ->
  Forall (fun r => exists f, score r = Ok f) l ->
  walk l st = Ok st.
Proof.
  intros Hd. revert st. induction Hd as [|r l Hr _ IH]; intros st Hs; simpl.
  - reflexivity.
  - inversion Hs as [|? ? [f Hf] Hs']; subst.
    unfold after, show, advance. rewrite Hf, Hr. simpl.
    rewrite andb_false_r. apply IH, Hs'.
Qed.

(** ** The sentinel *)

(** A score of -1 is the sentinel: the only row of [minus_one_rows] is
    not disqualified, is first in the sorted cohort, and shows no place. *)
Lemma sentinel_is_a_score :
  sorted_cohort minus_one_rows 1 = Ok minus_one_rows /\
  forallb (fun r => negb (disqualified r)) minus_one_rows = true /\
  map (displayed initial) minus_one_rows = [Ok None] /\
  ComputePlace.compute_place minus_one_rows (u "A") 1 = Ok None.
Proof. repeat split; vm_compute; reflexivity. Qed.

(** C4, amended: in the sorted cohort, the first row that is not
    disqualified is reached with the counter at 0 and the sentinel -1
    still in place; it shows the new place 1 when its score differs from
    -1 by more than 1e-5 in the loop's float test (a score within 1e-5 of
    -1, or a NaN, shows no place), and a target first matched on that
    row gets place 1. *)
Theorem first_ranked_row_shows_1 (rows pre post : list row) (r : row)
  (s : float) (name : str) (form : Z) :
  sorted_cohort rows form = Ok (pre ++ r :: post) ->
  Forall (fun q => disqualified q = true) pre ->
  disqualified r = false ->
  score r = Ok s ->
  changed s (-1) = true ->
  walk pre initial = Ok initial /\
  displayed initial r = Ok (Some (non_disqual_i initial + 1)) /\
  non_disqual_i initial + 1 = 1 /\
  (Forall (fun q => matches (ComputePlace.norm name) q = false) pre ->
   matches (ComputePlace.norm name) r = true ->
   ComputePlace.compute_place rows name form = Ok (Some 1)).
Proof.
  intros Hs Hpre Hr Hscore Hch.
  destruct (sorted_cohort_ok _ _ _ Hs) as [_ F].
  apply Forall_app in F. destruct F as [Fpre _].
  assert (W : walk pre initial = Ok initial)
    by (apply walk_disqualified; assumption).
  assert (D : displayed initial r = Ok (Some 1)).
  { unfold displayed, show. rewrite Hscore, Hr. simpl.
    unfold initial at 1. simpl. rewrite Hch. reflexivity. }
  repeat split; try assumption.
  intros Hn Hm.
  rewrite (compute_place_first_match _ _ _ _ _ _ Hs Hn Hm), W. exact D.
Qed.

Lemma first_ranked_row_shows_1_witness :
  ComputePlace.compute_place example_rows (u "A") 1 = Ok (Some 1).
Proof.
  refine (proj2 (proj2 (proj2
    (first_ranked_row_shows_1 example_rows [] (skipn 1 example_rows)
       (Row (Some (u "A")) (Some 1) (Some (NInt 100)) None None)
       100%float (u "A") 1 _ _ _ _ _))) _ _).
  - vm_compute; reflexivity.
  - constructor.
  - reflexivity.
  - vm_compute; reflexivity.
  - vm_compute; reflexivity.
  - constructor.
  - vm_compute; reflexivity.
Defined.

(** ** Ties and new places *)

Lemma last_place_advance (st : state) (d : bool) :
  last_place (advance st d) = last_place st.
Proof. unfold advance. destruct d; reflexivity. Qed.

Lemma last_sum_rank_advance (st : state) (d : bool) :
  last_non_disqual_sum_rank (advance st d) = last_non_disqual_sum_rank st.
Proof. unfold advance. destruct d; reflexivity. Qed.

Lemma show_same (st : state) (s : float) (d : bool) :
  d = true \/ changed s (last_non_disqual_sum_rank st) = false ->
  show st s d = st.
Proof.
  unfold show. intros [-> | ->]; [rewrite andb_false_r|]; reflexivity.
Qed.

Lemma show_new (st : state) (s : float) :
  changed s (last_non_disqual_sum_rank st) = true ->
  show st s false = State (non_disqual_i st) s (Some (non_disqual_i st + 1)).
Proof. unfold show. intros ->. reflexivity. Qed.

(** In [drifting_rows] the neighbours B and C are within 1e-5 of each
    other and show the places 1 and 3; in [example_rows] the score 90 of
    C differs from 100 and C, disqualified, shows place 1 and no new
    one. *)
Lemma neighbours_within_epsilon_differ :
  sorted_cohort drifting_rows 1 = Ok drifting_rows /\
  map score drifting_rows
  = [Ok 1%float; Ok 0.99999237060546875%float; Ok 0.9999847412109375%float] /\
  changed 0.9999847412109375 0.99999237060546875 = false /\
  ComputePlace.compute_place drifting_rows (u "B") 1 = Ok (Some 1) /\
  ComputePlace.compute_place drifting_rows (u "C") 1 = Ok (Some 3) /\
  changed 90 100 = true /\
  ComputePlace.compute_place example_rows (u "C") 1 = Ok (Some 1).
Proof. repeat split; vm_compute; reflexivity. Qed.

(** C3, amended: for two consecutive rows [q], [r] of the sorted cohort,
    the score of [r] is compared with the score of the last row that was
    shown a new place (which is [q]'s only when [q] was shown one), not
    with [q]'s.  If [r] is disqualified, or its score is within 1e-5 of
    that score, [r] shows the place [q] showed; if [r] is not
    disqualified and its score differs from it by more than 1e-5, [r]
    shows the counter plus 1.  A target first matched on a row [r] of the
    first kind is returned the place [q] showed. *)
Theorem tie_shows_previous_place (rows pre post : list row) (q r : row)
  (name : str) (form : Z) :
  sorted_cohort rows form = Ok (pre ++ q :: r :: post) ->
  exists (st : state) (sq sr : float),
    walk pre initial = Ok st /\ score q = Ok sq /\ score r = Ok sr /\
    let shown_q := show st sq (disqualified q) in
    let before_r := advance shown_q (disqualified q) in
    displayed st q = Ok (last_place shown_q) /\
    (disqualified q = false ->
     changed sq (last_non_disqual_sum_rank st) = true ->
     last_non_disqual_sum_rank before_r = sq) /\
    (disqualified r = true \/
     changed sr (last_non_disqual_sum_rank before_r) = false ->
     displayed before_r r = Ok (last_place shown_q)) /\
    (disqualified r = false ->
     changed sr (last_non_disqual_sum_rank before_r) = true ->
     displayed before_r r = Ok (Some (non_disqual_i before_r + 1))) /\
    (disqualified r = true \/
     changed sr (last_non_disqual_sum_rank before_r) = false ->
     Forall (fun x => matches (ComputePlace.norm name) x = false)
       (pre ++ [q]) ->
     matches (ComputePlace.norm name) r = true ->
     ComputePlace.compute_place rows name form = Ok (last_place shown_q)).
Proof.
  intros Hs.
  destruct (sorted_cohort_ok _ _ _ Hs) as [_ F].
  apply Forall_app in F. destruct F as [Fpre F].
  inversion F as [|? ? [sq Hq] F']; subst.
  inversion F' as [|? ? [sr Hr] _]; subst.
  destruct (walk_total pre initial Fpre) as [st Hst].
  exists st, sq, sr. repeat split; try assumption.
  - unfold displayed. rewrite Hq. reflexivity.
  - intros Hd Hc. rewrite last_sum_rank_advance, Hd, show_new by exact Hc.
    reflexivity.
  - intros Hsame. unfold displayed. rewrite Hr. simpl.
    rewrite show_same by exact Hsame.
    rewrite last_place_advance. reflexivity.
  - intros Hd Hc. unfold displayed. rewrite Hr, Hd. simpl.
    rewrite show_new by exact Hc. reflexivity.
  - intros Hsame Hn Hm.
    replace (pre ++ q :: r :: post) with ((pre ++ [q]) ++ r :: post) in Hs
      by (rewrite <- app_assoc; reflexivity).
    rewrite (compute_place_first_match _ _ _ _ _ _ Hs Hn Hm).
    rewrite walk_app, Hst. simpl. unfold after. rewrite Hq. simpl.
    unfold displayed. rewrite Hr. simpl.
    rewrite show_same by exact Hsame.
    rewrite last_place_advance. reflexivity.
Qed.

Lemma tie_shows_previous_place_witness :
  sorted_cohort example_rows 1 = Ok example_rows /\
  exists (st : state) (sq sr : float),
    walk [] initial = Ok st /\
    score (Row (Some (u "A")) (Some 1) (Some (NInt 100)) None None) = Ok sq /\
    score (Row (Some (u "B")) (Some 1) (Some (NInt 100)) None None) = Ok sr /\
    changed sr sq = false /\
    ComputePlace.compute_place example_rows (u "B") 1
    = Ok (last_place (show st sq false)).
Proof.
  assert (H : sorted_cohort example_rows 1 = Ok example_rows)
    by (vm_compute; reflexivity).
  split; [exact H|].
  destruct (tie_shows_previous_place example_rows [] (skipn 2 example_rows)
              (Row (Some (u "A")) (Some 1) (Some (NInt 100)) None None)
              (Row (Some (u "B")) (Some 1) (Some (NInt 100)) None None)
              (u "B") 1 H)
    as (st & sq & sr & Hw & Hq & Hr & _ & _ & _ & _ & Hplace).
  exists st, sq, sr.
  injection Hw as <-.
  assert (Eq : sq = 100%float) by (vm_compute in Hq; congruence).
  assert (Er : sr = 100%float) by (vm_compute in Hr; congruence).
  subst sq sr.
  split; [reflexivity|]. split; [exact Hq|]. split; [exact Hr|].
  split; [vm_compute; reflexivity|].
  apply Hplace.
  - right. vm_compute. reflexivity.
  - repeat constructor.
  - vm_compute. reflexivity.
Defined.

(** ** Absent fields *)

Section SortPayload.
Context {K A : Type}.
Variables (lt : K -> K -> bool) (f : A -> result K) (g : A -> A).

Let relabel (p : K * A) : K * A := (fst p, g (snd p)).

Lemma insert_relabel (x : K * A) (l : list (K * A)) :
  insert lt (relabel x) (map relabel l) = map relabel (insert lt x l).
Proof.
  induction l as [|y l IH]; simpl; [reflexivity|].
  destruct (lt (fst y) (fst x)); simpl; [rewrite IH|]; reflexivity.
Qed.

Lemma sort_pairs_relabel (l : list (K * A)) :
  sort_pairs lt (map relabel l) = map relabel (sort_pairs lt l).
Proof.
  induction l as [|x l IH]; simpl; [reflexivity|].
  rewrite IH. apply insert_relabel.
Qed.

Hypothesis same_key : forall x, f (g x) = f x.

Lemma decorate_relabel (l : list A) :
  decorate f (map g l) = (kl <- decorate f l ;; Ok (map relabel kl)).
Proof.
  induction l as [|x l IH]; simpl; [reflexivity|].
  rewrite same_key. destruct (f x) as [k|e]; simpl; [|reflexivity].
  rewrite IH. destruct (decorate f l); reflexivity.
Qed.

Lemma list_sort_relabel (l : list A) :
  list_sort lt f (map g l) = (s <- list_sort lt f l ;; Ok (map g s)).
Proof.
  unfold list_sort. rewrite decorate_relabel.
  destruct (decorate f l) as [kl|e]; simpl; [|reflexivity].
  rewrite sort_pairs_relabel, !map_map. reflexivity.
Qed.

End SortPayload.

Lemma sort_key_with_defaults (r : row) :
  ComputePlace.sort_key (with_defaults r) = ComputePlace.sort_key r.
Proof. destruct r as [n f s d a]. reflexivity. Qed.

Lemma sort_key_with_form_default (r : row) :
  ComputePlace.sort_key (with_form_default r) = ComputePlace.sort_key r.
Proof. destruct r as [n [f|] s d a]; reflexivity. Qed.

Lemma filter_with_defaults (form : Z) (rows : list row) :
  filter (form_is form) (map with_defaults rows)
  = map with_defaults (filter (form_is form) rows).
Proof.
  induction rows as [|r rows IH]; simpl; [reflexivity|].
  change (form_is form (with_defaults r)) with (form_is form r).
  destruct (form_is form r); simpl; rewrite IH; reflexivity.
Qed.

Lemma loop_with_defaults (target : str) (l : list row) (st : state) :
  ComputePlace.loop target (map with_defaults l) st
  = ComputePlace.loop target l st.
Proof.
  revert st. induction l as [|r l IH]; intros st; simpl; [reflexivity|].
  change (get r_sumRank (NFloat 0) (with_defaults r))
    with (get r_sumRank (NInt 0) r).
  rewrite score_default. unfold score.
  destruct (py_float _) as [s|e]; simpl; [|reflexivity].
  change (get r_disqual false (with_defaults r)) with (get r_disqual false r).
  change (get r_name [] (with_defaults r)) with (get r_name [] r).
  destruct (ComputePlace.name_match _ _); [reflexivity | apply IH].
Qed.

(** A row with no [form] is not found in the cohort -1; the same row
    with form -1 written out is, at place 1. *)
Lemma no_form_is_cohort_minus_one_fails :
  ComputePlace.compute_place no_form_rows (u "A") (-1) = Ok None /\
  ComputePlace.compute_place form_minus_one_rows (u "A") (-1) = Ok (Some 1) /\
  map (form_is (-1)) no_form_rows = [false].
Proof. repeat split; vm_compute; reflexivity. Qed.

(** C7, amended: an absent [sumRank], [disqual], [automatic] or [name] is
    read as 0, false, false and the empty string by the sort key and by
    the loop, and the sort key reads an absent [form] as -1; a row is not
    rejected for an absent field.  The cohort filter reads [form] without
    a default: a row with no [form] is in no cohort, the cohort -1
    included, and takes no part in the ranking. *)
Theorem absent_fields_defaulted (rows l1 l2 : list row) (name : str) (form : Z)
  (r : row) (n : option str) (s : option number) (d a : option bool) :
  ComputePlace.sort_key r
  = ComputePlace.sort_key (with_form_default (with_defaults r)) /\
  ComputePlace.compute_place (map with_defaults rows) name form
  = ComputePlace.compute_place rows name form /\
  ComputePlace.sort_key (Row None None None None None)
  = Ok ((-0)%float, 0, 0, -1, []) /\
  score (Row None None None None None) = Ok 0%float /\
  form_is form (Row n None s d a) = false /\
  ComputePlace.compute_place (l1 ++ Row n None s d a :: l2) name form
  = ComputePlace.compute_place (l1 ++ l2) name form.
Proof.
  split; [|split; [|split; [|split; [|split]]]].
  - rewrite sort_key_with_form_default, sort_key_with_defaults. reflexivity.
  - unfold ComputePlace.compute_place.
    rewrite filter_with_defaults.
    rewrite (list_sort_relabel _ _ _ sort_key_with_defaults).
    destruct (list_sort _ _ _) as [sorted|e]; simpl; [|reflexivity].
    apply loop_with_defaults.
  - reflexivity.
  - reflexivity.
  - reflexivity.
  - unfold ComputePlace.compute_place. rewrite !filter_app. reflexivity.
Qed.

(** ** The fetch cache *)

Lemma download_fails (net : App.http) :
  refresh_fails net = true <-> exists e, App.download net = Raise e.
Proof.
  unfold App.download, App.raise_for_status, App.response_json.
  destruct net as [|code [[rows|]|]]; simpl;
    try destruct (_ && _); simpl;
    split; intros H; try reflexivity; try discriminate;
    try (eexists; reflexivity);
    destruct H as [e H]; discriminate.
Qed.

Lemma download_exceptions (net : App.http) (e : exn) :
  App.download net = Raise e ->
  e = RequestException \/ e = HTTPError \/ e = JSONDecodeError \/ e = ValueError.
Proof.
  unfold App.download, App.raise_for_status, App.response_json.
  destruct net as [|code [[rows|]|]]; simpl;
    try destruct (_ && _); simpl;
    intros H; inversion H; auto.
Qed.

(** A response with status 203 and a JSON list is no failure: the stale
    cache is replaced and nothing is raised. *)
Lemma non_200_status_can_refresh :
  App.fresh 30 filled_cache 1031 = false /\
  refresh_fails (App.Response 203 (Some (App.JList []))) = false /\
  App._fetch_data 30 filled_cache 1031 (App.Response 203 (Some (App.JList [])))
  = (App.mkCache 1031 (Some []), Ok []).
Proof. repeat split; vm_compute; reflexivity. Qed.

(** C9, amended: when the cache is stale and the refresh attempt fails
    (no answer from the network, a status from 400 to 599, which is what
    [raise_for_status] rejects, a body that is not JSON, or a JSON
    document that is not a list), [_fetch_data] raises the exception of
    the failed step and leaves the cache, [fetched_at] and [data], as it
    was.  A response with any other status, 200 or not, and a JSON list
    is a successful fetch: it replaces the cache. *)
Theorem failed_refresh_keeps_cache (CACHE_TTL_SECONDS : Z) (cache : App.Cache)
  (now : float) (net : App.http) :
  App.fresh CACHE_TTL_SECONDS cache now = false ->
  (refresh_fails net = true ->
   exists e,
     App.download net = Raise e /\
     (e = RequestException \/ e = HTTPError \/ e = JSONDecodeError \/
      e = ValueError) /\
     App._fetch_data CACHE_TTL_SECONDS cache now net = (cache, Raise e)) /\
  (refresh_fails net = false ->
   exists status_code rows,
     net = App.Response status_code (Some (App.JList rows)) /\
     (400 <=? status_code) && (status_code <? 600) = false /\
     App._fetch_data CACHE_TTL_SECONDS cache now net
     = (App.mkCache now (Some rows), Ok rows)).
Proof.
  intros Hstale. split.
  - intros Hfail. apply download_fails in Hfail. destruct Hfail as [e He].
    exists e. split; [exact He|]. split; [exact (download_exceptions _ _ He)|].
    unfold App._fetch_data. rewrite Hstale, He. reflexivity.
  - intros Hok. unfold App._fetch_data. rewrite Hstale.
    destruct net as [|code [[rows|]|]]; simpl in Hok; try discriminate;
      try (rewrite orb_true_r in Hok; discriminate).
    rewrite orb_false_r in Hok.
    exists code, rows. split; [reflexivity|]. split; [exact Hok|].
    unfold App.download, App.raise_for_status. simpl. rewrite Hok. reflexivity.
Qed.

Lemma failed_refresh_keeps_cache_witness :
  App.fresh 30 filled_cache 1031 = false /\
  refresh_fails (App.Response 503 None) = true /\
  exists e,
    App.download (App.Response 503 None) = Raise e /\
    App._fetch_data 30 filled_cache 1031 (App.Response 503 None)
    = (filled_cache, Raise e).
Proof.
  assert (Hs : App.fresh 30 filled_cache 1031 = false)
    by (vm_compute; reflexivity).
  split; [exact Hs|]. split; [reflexivity|].
  destruct (proj1 (failed_refresh_keeps_cache 30 filled_cache 1031
                     (App.Response 503 None) Hs) eq_refl)
    as (e & Hd & _ & Hf).
  exists e. split; assumption.
Defined.

(** ** Names *)

Lemma is_space_letters (c : N) :
  (33 <= c < 133 \/ 161 <= c < 5760)%N -> is_space c = false.
Proof.
  intros H. unfold is_space.
  repeat match goal with
         | |- context [(?a <=? ?b)%N] => destruct (N.leb_spec a b); try lia
         | |- context [(?a =? ?b)%N] => destruct (N.eqb_spec a b); try lia
         end; reflexivity.
Qed.

Lemma lower_cp_cases (c : N) :
  lower_cp c = c \/
  ((65 <= c < 5000)%N /\ (65 <= lower_cp c < 5000)%N /\
   ~ (133 <= c < 161)%N /\ ~ (133 <= lower_cp c < 161)%N).
Proof.
  unfold lower_cp.
  repeat match goal with
         | |- context [(?a <=? ?b)%N] => destruct (N.leb_spec a b)
         | |- context [(?a =? ?b)%N] => destruct (N.eqb_spec a b)
         end; simpl; try (left; reflexivity); right; lia.
Qed.

Lemma is_space_lower_cp (c : N) : is_space (lower_cp c) = is_space c.
Proof.
  destruct (lower_cp_cases c) as [-> | (H1 & H2 & H3 & H4)]; [reflexivity|].
  rewrite !is_space_letters by lia. reflexivity.
Qed.

Lemma starts_with_space_lower (s : str) :
  starts_with_space (lower s) = starts_with_space s.
Proof. destruct s; simpl; [reflexivity | apply is_space_lower_cp]. Qed.

Lemma ends_clean_lower (s : str) : ends_clean (lower s) = ends_clean s.
Proof.
  induction s as [|c [|c' s] IH]; simpl in *.
  - reflexivity.
  - rewrite is_space_lower_cp. reflexivity.
  - exact IH.
Qed.

Lemma ends_clean_snoc (s : str) (c : N) :
  ends_clean (s ++ [c]) = negb (is_space c).
Proof.
  induction s as [|x s IH]; simpl; [reflexivity|].
  destruct (s ++ [c]) eqn:E; [destruct s; discriminate | exact IH].
Qed.

Lemma lstrip_clean (s : str) : starts_with_space (lstrip s) = false.
Proof.
  induction s as [|c s IH]; simpl; [reflexivity|].
  destruct (is_space c) eqn:E; [exact IH | simpl; exact E].
Qed.

Lemma lstrip_suffix (s : str) : exists ws, s = ws ++ lstrip s.
Proof.
  induction s as [|c s [ws IH]]; simpl.
  - exists []. reflexivity.
  - destruct (is_space c).
    + exists (c :: ws). simpl. f_equal. exact IH.
    + exists []. reflexivity.
Qed.

Lemma strip_starts_clean (s : str) : starts_with_space (strip s) = false.
Proof.
  unfold strip. pose proof (lstrip_clean s) as Ha.
  destruct (lstrip_suffix (rev (lstrip s))) as [ws Hws].
  set (b := lstrip (rev (lstrip s))) in *.
  apply (f_equal (@rev N)) in Hws. rewrite rev_involutive, rev_app_distr in Hws.
  destruct (rev b) as [|c z]; [reflexivity|].
  rewrite Hws in Ha. exact Ha.
Qed.

Lemma strip_ends_clean (s : str) : ends_clean (strip s) = true.
Proof.
  unfold strip. pose proof (lstrip_clean (rev (lstrip s))) as Hb.
  destruct (lstrip (rev (lstrip s))) as [|c z]; [reflexivity|].
  simpl. rewrite ends_clean_snoc. simpl in Hb. rewrite Hb. reflexivity.
Qed.

Lemma split_nonempty (s : str) :
  ends_clean s = true -> s <> [] -> split s <> [].
Proof.
  induction s as [|c s IH]; intros He Hn; [congruence|].
  simpl. destruct s as [|c' s'].
  - simpl in He. destruct (is_space c); [discriminate|]. simpl. discriminate.
  - assert (Hs : split (c' :: s') <> []) by (apply IH; [exact He | discriminate]).
    destruct (is_space c); [exact Hs|].
    destruct (split (c' :: s')); [congruence|].
    destruct (at_gap (c' :: s')); discriminate.
Qed.

Lemma join_split_collapse (s : str) :
  ends_clean s = true ->
  collapse s =
  (if starts_with_space s then [space] else []) ++ join [space] (split s).
Proof.
  induction s as [|c s IH]; intros He; [reflexivity|].
  assert (He' : ends_clean s = true) by (destruct s; [reflexivity | exact He]).
  specialize (IH He').
  cbn [collapse split starts_with_space].
  destruct (is_space c) eqn:Ec.
  - destruct s as [|c' s']; [simpl in He; rewrite Ec in He; discriminate|].
    rewrite IH. destruct (starts_with_space (c' :: s')); reflexivity.
  - rewrite IH. destruct s as [|c' s']; [reflexivity|].
    pose proof (split_nonempty (c' :: s') He' ltac:(discriminate)) as Hne.
    destruct (split (c' :: s')) as [|w ws] eqn:Es; [congruence|].
    cbn [starts_with_space at_gap].
    destruct (is_space c'); simpl.
    + reflexivity.
    + destruct ws; reflexivity.
Qed.

(** [norm] computes the normal form the design document words. *)
Lemma norm_spec_normalize (s : str) : ComputePlace.norm s = spec_normalize s.
Proof.
  unfold ComputePlace.norm, spec_normalize.
  rewrite join_split_collapse
    by (rewrite ends_clean_lower; apply strip_ends_clean).
  rewrite starts_with_space_lower, strip_starts_clean. reflexivity.
Qed.

Lemma str_eqb_eq (a b : str) : str_eqb a b = true <-> a = b.
Proof.
  revert b. induction a as [|x a IH]; intros [|y b]; simpl;
    try (split; [discriminate | congruence]); [tauto|].
  rewrite andb_true_iff, N.eqb_eq, IH. split.
  - intros [-> ->]. reflexivity.
  - intros H. injection H as -> ->. tauto.
Qed.

Lemma startswith_prefix (s p : str) :
  startswith s p = true <-> exists rest, s = p ++ rest.
Proof.
  revert s. induction p as [|y p IH]; intros s; simpl.
  - split; [intros _; exists s; reflexivity | reflexivity].
  - destruct s as [|x s].
    + split; [discriminate | intros [rest H]; discriminate].
    + rewrite andb_true_iff, N.eqb_eq, IH. split.
      * intros [-> [rest ->]]. exists rest. reflexivity.
      * intros [rest H]. injection H as -> ->. split; [reflexivity|].
        exists rest. reflexivity.
Qed.

Lemma name_match_iff (row_name target : str) :
  ComputePlace.name_match row_name target = true <->
  row_name = target \/ exists rest, row_name = target ++ space :: rest.
Proof.
  unfold ComputePlace.name_match.
  rewrite orb_true_iff, str_eqb_eq, startswith_prefix.
  split; (intros [H|[rest H]]; [left; exact H | right; exists rest]).
  - rewrite H, <- app_assoc. reflexivity.
  - rewrite H, <- app_assoc. reflexivity.
Qed.

(** C5: [norm] is the normal form "trimmed, lowercased, whitespace runs
    collapsed to single spaces", and the loop stops at a row exactly when
    the row's normalized name is the normalized target or begins with
    the normalized target followed by a space.  So the target
    "иванов иван" matches "  Иванов   Иван  " and "Иванов Иван Петрович"
    and not "Иванова Ивана", and "Ann" does not match "Anna". *)
Theorem name_matching (row_name name : str) (r : row) :
  ComputePlace.norm row_name = spec_normalize row_name /\
  (ComputePlace.name_match (ComputePlace.norm row_name) (ComputePlace.norm name)
   = true <->
   spec_normalize row_name = spec_normalize name \/
   exists rest,
     spec_normalize row_name = spec_normalize name ++ space :: rest) /\
  (matches (ComputePlace.norm name) r = true <->
   spec_normalize (get r_name [] r) = spec_normalize name \/
   exists rest,
     spec_normalize (get r_name [] r) = spec_normalize name ++ space :: rest) /\
  ComputePlace.norm (u "иванов иван") = u "иванов иван" /\
  ComputePlace.name_match (ComputePlace.norm (u "  Иванов   Иван  "))
    (u "иванов иван") = true /\
  ComputePlace.name_match (ComputePlace.norm (u "Иванов Иван Петрович"))
    (u "иванов иван") = true /\
  ComputePlace.name_match (ComputePlace.norm (u "Иванова Ивана"))
    (u "иванов иван") = false /\
  ComputePlace.name_match (ComputePlace.norm (u "Anna"))
    (ComputePlace.norm (u "Ann")) = false.
Proof.
  split; [apply norm_spec_normalize|].
  split; [rewrite <- !norm_spec_normalize; apply name_match_iff|].
  split; [unfold matches; rewrite <- !norm_spec_normalize; apply name_match_iff|].
  repeat split; vm_compute; reflexivity.
Qed.

(** ** The order of the sort keys *)

Ltac bools :=
  repeat match goal with
         | |- context [(?a <? ?b)] => destruct (Z.ltb_spec a b)
         | |- context [(?a =? ?b)] => destruct (Z.eqb_spec a b)
         | |- context [(?a =? ?b)%positive] => destruct (Pos.eqb_spec a b)
         end.

Lemma float_ltb_rank (x y : float) :
  is_nan x = false -> is_nan y = false ->
  (x <? y)%float = lex_ltb (rank x) (rank y).
Proof.
  unfold is_nan. rewrite !FloatAxioms.eqb_spec, FloatAxioms.ltb_spec. unfold rank, SFeqb, SFltb.
  destruct (Prim2SF x) as [sx|sx| |sx mx ex], (Prim2SF y) as [sy|sy| |sy my ey];
    simpl; try discriminate; intros _ _;
    try (destruct sx); try (destruct sy); try reflexivity;
    change (PosDef.Pos.compare_cont Eq mx my) with (mx ?= my)%positive;
    destruct (Z.compare_spec ex ey), (Pos.compare_spec mx my); simpl;
    bools; simpl; try reflexivity; try lia; try congruence.
Qed.

Lemma float_eqb_rank (x y : float) :
  is_nan x = false -> is_nan y = false ->
  (x =? y)%float = lex_eqb (rank x) (rank y).
Proof.
  unfold is_nan. rewrite !FloatAxioms.eqb_spec. unfold rank, SFeqb.
  destruct (Prim2SF x) as [sx|sx| |sx mx ex], (Prim2SF y) as [sy|sy| |sy my ey];
    simpl; try discriminate; intros _ _;
    try (destruct sx); try (destruct sy); try reflexivity;
    change (PosDef.Pos.compare_cont Eq mx my) with (mx ?= my)%positive;
    destruct (Z.compare_spec ex ey), (Pos.compare_spec mx my); simpl;
    bools; simpl; try reflexivity; try lia; try congruence.
Qed.

Lemma rank_eq (x y : float) :
  is_nan x = false -> is_nan y = false -> rank x = rank y -> same_score x y.
Proof.
  unfold is_nan, same_score, signed_zero. rewrite !FloatAxioms.eqb_spec.
  unfold rank, SFeqb. intros Hx Hy H.
  destruct (Prim2SF x) as [sx|sx| |sx mx ex] eqn:Ex,
           (Prim2SF y) as [sy|sy| |sy my ey] eqn:Ey;
    simpl in *; try discriminate;
    try (destruct sx); try (destruct sy); try discriminate;
    try (right; split; reflexivity);
    left; apply Prim2SF_inj; rewrite Ex, Ey; try reflexivity;
    injection H; intros; f_equal; lia.
Qed.

Lemma rank_length (f : float) : List.length (rank f) = 3%nat.
Proof.
  unfold rank. destruct (Prim2SF f) as [s|s| |[] m e]; reflexivity.
Qed.

Lemma lex_ltb_irrefl (a : list Z) : lex_ltb a a = false.
Proof.
  induction a as [|x a IH]; simpl; [reflexivity|].
  rewrite Z.ltb_irrefl, Z.eqb_refl, IH. reflexivity.
Qed.

Lemma lex_ltb_total (a b : list Z) :
  lex_ltb a b = false -> lex_ltb b a = false -> a = b.
Proof.
  revert b. induction a as [|x a IH]; intros [|y b]; simpl;
    try discriminate; [reflexivity|].
  destruct (Z.ltb_spec x y), (Z.ltb_spec y x), (Z.eqb_spec x y),
    (Z.eqb_spec y x); simpl; try discriminate; try lia.
  intros. subst. f_equal. auto.
Qed.

Lemma lex_ltb_trans (a b c : list Z) :
  lex_ltb a b = true -> lex_ltb b c = true -> lex_ltb a c = true.
Proof.
  revert b c. induction a as [|x a IH]; intros [|y b] [|z c]; simpl;
    try discriminate; try reflexivity.
  destruct (Z.ltb_spec x y), (Z.ltb_spec y z), (Z.ltb_spec x z),
    (Z.eqb_spec x y), (Z.eqb_spec y z), (Z.eqb_spec x z); simpl;
    try discriminate; try lia; try reflexivity.
  apply IH.
Qed.

Lemma lex_ltb_asym (a b : list Z) : lex_ltb a b = true -> lex_ltb b a = false.
Proof.
  intros H. destruct (lex_ltb b a) eqn:E; [|reflexivity].
  pose proof (lex_ltb_trans _ _ _ H E) as T.
  rewrite lex_ltb_irrefl in T. discriminate.
Qed.

Lemma lex_ltb_negtrans (a b c : list Z) :
  lex_ltb a b = false -> lex_ltb b c = false -> lex_ltb a c = false.
Proof.
  intros H1 H2. destruct (lex_ltb a c) eqn:E; [|reflexivity].
  destruct (lex_ltb b a) eqn:E'.
  - rewrite (lex_ltb_trans _ _ _ E' E) in H2. discriminate.
  - rewrite (lex_ltb_total _ _ H1 E') in E. congruence.
Qed.

Lemma lex_eqb_eq (a b : list Z) : lex_eqb a b = true <-> a = b.
Proof.
  revert b. induction a as [|x a IH]; intros [|y b]; simpl;
    try (split; [discriminate | congruence]); [tauto|].
  rewrite andb_true_iff, Z.eqb_eq, IH.
  split; [intros [-> ->]; reflexivity | intros H; injection H; auto].
Qed.

Lemma lex_ltb_app (a b t1 t2 : list Z) :
  List.length a = List.length b ->
  lex_ltb (a ++ t1) (b ++ t2) = lex_ltb a b || lex_eqb a b && lex_ltb t1 t2.
Proof.
  revert b. induction a as [|x a IH]; intros [|y b] H; simpl in *;
    try discriminate; [reflexivity|].
  rewrite IH by lia.
  destruct (x <? y), (x =? y); reflexivity.
Qed.

Lemma str_ltb_lex (a b : str) :
  str_ltb a b = lex_ltb (map Z.of_N a) (map Z.of_N b).
Proof.
  revert b. induction a as [|x a IH]; intros [|y b]; simpl; try reflexivity.
  rewrite IH.
  destruct (N.ltb_spec x y), (N.eqb_spec x y), (Z.ltb_spec (Z.of_N x) (Z.of_N y)),
    (Z.eqb_spec (Z.of_N x) (Z.of_N y)); simpl; try reflexivity; lia.
Qed.

Lemma map_of_N_inj (a b : str) : map Z.of_N a = map Z.of_N b -> a = b.
Proof.
  revert b. induction a as [|x a IH]; intros [|y b]; simpl;
    try discriminate; [reflexivity|].
  intros H. injection H as Hx Ht. f_equal; [lia | apply IH, Ht].
Qed.

(** On keys without NaN the tuple comparison is the lexicographic order
    of the codes. *)
Lemma key_lt_code (k1 k2 : key) :
  ordered_key k1 -> ordered_key k2 ->
  key_lt k1 k2 = lex_ltb (code k1) (code k2).
Proof.
  destruct k1 as [[[[f1 d1] a1] c1] n1], k2 as [[[[f2 d2] a2] c2] n2].
  simpl. intros H1 H2.
  rewrite lex_ltb_app by (rewrite !rank_length; reflexivity).
  rewrite (float_eqb_rank _ _ H1 H2), (float_ltb_rank _ _ H1 H2).
  destruct (lex_eqb (rank f1) (rank f2)) eqn:Ef; simpl.
  - apply lex_eqb_eq in Ef. rewrite Ef, lex_ltb_irrefl. simpl.
    rewrite <- str_ltb_lex.
    destruct (str_eqb n1 n2) eqn:En.
    + apply str_eqb_eq in En. subst n2.
      rewrite str_ltb_lex, lex_ltb_irrefl.
      bools; simpl; try reflexivity; lia.
    + bools; simpl; try reflexivity; lia.
  - rewrite orb_false_r. reflexivity.
Qed.

Lemma key_lt_irrefl (k : key) : ordered_key k -> key_lt k k = false.
Proof. intros H. rewrite key_lt_code by exact H. apply lex_ltb_irrefl. Qed.

Lemma key_lt_asym (k1 k2 : key) :
  ordered_key k1 -> ordered_key k2 ->
  key_lt k1 k2 = true -> key_lt k2 k1 = false.
Proof.
  intros H1 H2. rewrite !key_lt_code by assumption. apply lex_ltb_asym.
Qed.

Lemma key_lt_negtrans (k1 k2 k3 : key) :
  ordered_key k1 -> ordered_key k2 -> ordered_key k3 ->
  key_lt k1 k2 = false -> key_lt k2 k3 = false -> key_lt k1 k3 = false.
Proof.
  intros H1 H2 H3. rewrite !key_lt_code by assumption. apply lex_ltb_negtrans.
Qed.

Lemma key_lt_neither (k1 k2 : key) :
  ordered_key k1 -> ordered_key k2 ->
  key_lt k1 k2 = false -> key_lt k2 k1 = false -> code k1 = code k2.
Proof.
  intros H1 H2. rewrite !key_lt_code by assumption. apply lex_ltb_total.
Qed.

(** ** The sort of a permuted list *)

Section SortPermuted.
Context {K A : Type}.
Variable lt : K -> K -> bool.
Variable D : K -> Prop.
Hypothesis lt_irrefl : forall x, D x -> lt x x = false.
Hypothesis lt_asym : forall x y, D x -> D y -> lt x y = true -> lt y x = false.
Hypothesis lt_negtrans : forall x y z, D x -> D y -> D z ->
  lt x y = false -> lt y z = false -> lt x z = false.

(** Neither key is smaller. *)
Let tied (p q : K * A) : Prop :=
  lt (fst p) (fst q) = false /\ lt (fst q) (fst p) = false.

Let dom (p : K * A) : Prop := D (fst p).

Lemma tied_refl (p : K * A) : dom p -> tied p p.
Proof. intros H. split; apply lt_irrefl, H. Qed.

Lemma tied_list_refl (l : list (K * A)) : Forall dom l -> Forall2 tied l l.
Proof. induction 1; constructor; [apply tied_refl|]; assumption. Qed.

Lemma tied_trans (p q r : K * A) :
  dom p -> dom q -> dom r -> tied p q -> tied q r -> tied p r.
Proof.
  intros Hp Hq Hr [H1 H2] [H3 H4].
  split; eapply lt_negtrans; eauto.
Qed.

Lemma tied_list_trans (l1 l2 l3 : list (K * A)) :
  Forall dom l1 -> Forall dom l2 -> Forall dom l3 ->
  Forall2 tied l1 l2 -> Forall2 tied l2 l3 -> Forall2 tied l1 l3.
Proof.
  intros D1 D2 D3 H. revert l3 D1 D2 D3.
  induction H as [|p q l1 l2 Hpq _ IH]; intros l3 D1 D2 D3 H'.
  - inversion H'. constructor.
  - inversion H' as [|? r ? l3' Hqr Hrest]; subst.
    inversion D1; inversion D2; inversion D3; subst.
    constructor; [apply (tied_trans p q r) | apply IH]; assumption.
Qed.

Lemma tied_lt_left (p q x : K * A) :
  dom p -> dom q -> dom x -> tied p q ->
  lt (fst p) (fst x) = lt (fst q) (fst x).
Proof.
  intros Hp Hq Hx [H1 H2].
  destruct (lt (fst p) (fst x)) eqn:E1, (lt (fst q) (fst x)) eqn:E2;
    try reflexivity.
  - rewrite (lt_negtrans _ _ _ Hp Hq Hx H1 E2) in E1. discriminate.
  - rewrite (lt_negtrans _ _ _ Hq Hp Hx H2 E1) in E2. discriminate.
Qed.

Lemma lt_le_lt (x y z : K * A) :
  dom x -> dom y -> dom z ->
  lt (fst z) (fst y) = false -> lt (fst z) (fst x) = true ->
  lt (fst y) (fst x) = true.
Proof.
  intros Hx Hy Hz H1 H2.
  destruct (lt (fst y) (fst x)) eqn:E; [reflexivity|].
  rewrite (lt_negtrans _ _ _ Hz Hy Hx H1 E) in H2. discriminate.
Qed.

Lemma insert_dom (x : K * A) (l : list (K * A)) :
  dom x -> Forall dom l -> Forall dom (insert lt x l).
Proof.
  intros Hx Hl. eapply Permutation_Forall.
  - symmetry. apply insert_perm.
  - constructor; assumption.
Qed.

Lemma sort_pairs_dom (l : list (K * A)) :
  Forall dom l -> Forall dom (sort_pairs lt l).
Proof.
  intros Hl. eapply Permutation_Forall; [|exact Hl].
  symmetry. apply sort_pairs_perm.
Qed.

Lemma insert_tied (x : K * A) (a b : list (K * A)) :
  dom x -> Forall dom a -> Forall dom b ->
  Forall2 tied a b -> Forall2 tied (insert lt x a) (insert lt x b).
Proof.
  intros Hx Da Db H. induction H as [|p q a b Hpq Hab IH]; simpl.
  - constructor; [apply tied_refl, Hx | constructor].
  - inversion Da; inversion Db; subst.
    rewrite (tied_lt_left p q x) by assumption.
    destruct (lt (fst q) (fst x)).
    + constructor; [exact Hpq | apply IH; assumption].
    + constructor; [apply tied_refl, Hx|]. constructor; assumption.
Qed.

Lemma insert_two (x y : K * A) :
  dom x -> dom y ->
  Forall2 tied (insert lt x [y]) (insert lt y [x]).
Proof.
  intros Hx Hy. simpl.
  destruct (lt (fst y) (fst x)) eqn:E1, (lt (fst x) (fst y)) eqn:E2.
  - rewrite (lt_asym _ _ Hy Hx E1) in E2. discriminate.
  - apply tied_list_refl. repeat constructor; assumption.
  - apply tied_list_refl. repeat constructor; assumption.
  - repeat constructor; assumption.
Qed.

Lemma insert_swap (x y : K * A) (s : list (K * A)) :
  dom x -> dom y -> Forall dom s ->
  Forall2 tied (insert lt x (insert lt y s)) (insert lt y (insert lt x s)).
Proof.
  intros Hx Hy Hs. induction Hs as [|z s Hz Hs IH].
  - apply insert_two; assumption.
  - simpl.
    destruct (lt (fst z) (fst y)) eqn:Ezy, (lt (fst z) (fst x)) eqn:Ezx;
      simpl; rewrite ?Ezy, ?Ezx.
    + constructor; [apply tied_refl, Hz | exact IH].
    + rewrite (lt_le_lt y x z) by assumption.
      apply tied_list_refl. constructor; [exact Hx|].
      constructor; [exact Hz|]. apply insert_dom; assumption.
    + rewrite (lt_le_lt x y z) by assumption.
      apply tied_list_refl. constructor; [exact Hy|].
      constructor; [exact Hz|]. apply insert_dom; assumption.
    + pose proof (insert_two x y Hx Hy) as T. simpl in T.
      destruct (lt (fst y) (fst x)), (lt (fst x) (fst y));
        inversion T as [|? ? ? ? T1 T']; subst;
        inversion T' as [|? ? ? ? T2 _]; subst;
        repeat (constructor; try assumption);
        try (apply tied_refl, Hz); apply tied_list_refl, Hs.
Qed.

(** Sorting two permutations of one list gives, position by position,
    elements whose keys are tied. *)
Lemma sort_pairs_permuted (l l' : list (K * A)) :
  Permutation l l' -> Forall dom l ->
  Forall2 tied (sort_pairs lt l) (sort_pairs lt l').
Proof.
  induction 1 as [|x l l' P IH|x y l|l l' l'' P1 IH1 P2 IH2]; intros Hl.
  - constructor.
  - inversion Hl; subst. simpl.
    apply insert_tied; try assumption.
    + apply sort_pairs_dom. assumption.
    + apply sort_pairs_dom. eapply Permutation_Forall; eassumption.
    + apply IH. assumption.
  - inversion Hl as [|? ? Hy Hl']; subst. inversion Hl'; subst. simpl.
    apply insert_swap; try assumption. apply sort_pairs_dom. assumption.
  - assert (Hl' : Forall dom l') by (eapply Permutation_Forall; eassumption).
    assert (Hl'' : Forall dom l'') by (eapply Permutation_Forall; eassumption).
    eapply tied_list_trans; [| | | apply IH1 | apply IH2];
      try apply sort_pairs_dom; assumption.
Qed.

End SortPermuted.

(** ** Rows with tied keys *)

Lemma is_nan_spec (x : float) :
  is_nan x = match Prim2SF x with S754_nan => true | _ => false end.
Proof.
  unfold is_nan. rewrite FloatAxioms.eqb_spec. unfold SFeqb.
  destruct (Prim2SF x) as [s|s| |s m e]; simpl; try reflexivity.
  - destruct s; reflexivity.
  - change (PosDef.Pos.compare_cont Eq m m) with (m ?= m)%positive.
    rewrite Z.compare_refl, Pos.compare_refl. destruct s; reflexivity.
Qed.

Lemma is_nan_opp (x : float) : is_nan (- x)%float = is_nan x.
Proof.
  rewrite !is_nan_spec, opp_spec.
  destruct (Prim2SF x) as [s|s| |s m e]; reflexivity.
Qed.

Lemma signed_zero_opp (x : float) : signed_zero (- x)%float = signed_zero x.
Proof.
  unfold signed_zero. rewrite opp_spec.
  destruct (Prim2SF x) as [s|s| |s m e]; reflexivity.
Qed.

Lemma opp_inj (x y : float) : (- x)%float = (- y)%float -> x = y.
Proof.
  intros H. apply (f_equal Prim2SF) in H. rewrite !opp_spec in H.
  apply Prim2SF_inj.
  destruct (Prim2SF x) as [[]|[]| |[] m e], (Prim2SF y) as [[]|[]| |[] m' e'];
    simpl in H; congruence.
Qed.

Lemma same_score_opp (x y : float) :
  same_score (- x)%float (- y)%float -> same_score x y.
Proof.
  intros [H|[H1 H2]]; [left; apply opp_inj, H | right].
  rewrite !signed_zero_opp in *. tauto.
Qed.

Lemma same_score_refl (x : float) : same_score x x.
Proof. left. reflexivity. Qed.

Lemma changed_spec (s l : float) :
  changed s l =
  SFltb (Prim2SF 0x1.4f8b588e368f1p-17%float)
        (SFabs (SF64sub (Prim2SF s) (Prim2SF l))).
Proof.
  unfold changed. rewrite FloatAxioms.ltb_spec, abs_spec, sub_spec. reflexivity.
Qed.

Lemma changed_zero_left (s s' l : float) :
  signed_zero s = true -> signed_zero s' = true -> changed s l = changed s' l.
Proof.
  unfold signed_zero. rewrite !changed_spec. unfold SF64sub.
  destruct (Prim2SF s) as [[]| | |], (Prim2SF s') as [[]| | |];
    try discriminate; intros _ _;
    destruct (Prim2SF l) as [[]|[]| |[] m e]; reflexivity.
Qed.

Lemma changed_zero_right (s l l' : float) :
  signed_zero l = true -> signed_zero l' = true -> changed s l = changed s l'.
Proof.
  unfold signed_zero. rewrite !changed_spec. unfold SF64sub.
  destruct (Prim2SF l) as [[]| | |], (Prim2SF l') as [[]| | |];
    try discriminate; intros _ _;
    destruct (Prim2SF s) as [[]|[]| |[] m e]; reflexivity.
Qed.

Lemma changed_same_score (s s' l l' : float) :
  same_score s s' -> same_score l l' -> changed s l = changed s' l'.
Proof.
  intros [->|[Hs Hs']] [->|[Hl Hl']].
  - reflexivity.
  - apply changed_zero_right; assumption.
  - apply changed_zero_left; assumption.
  - rewrite (changed_zero_left s s' l Hs Hs'). apply changed_zero_right; assumption.
Qed.

Lemma show_same_state (st st' : state) (s s' : float) (d : bool) :
  same_state st st' -> same_score s s' ->
  same_state (show st s d) (show st' s' d).
Proof.
  intros (Hi & Hl & Hp) Hs. unfold show.
  rewrite (changed_same_score s s' _ _ Hs Hl).
  destruct (changed s' _ && negb d).
  - repeat split; simpl; [exact Hi | exact Hs | rewrite Hi; reflexivity].
  - repeat split; assumption.
Qed.

Lemma advance_same_state (st st' : state) (d : bool) :
  same_state st st' -> same_state (advance st d) (advance st' d).
Proof.
  intros (Hi & Hl & Hp). unfold advance.
  destruct (negb d); repeat split; simpl; try assumption.
  rewrite Hi. reflexivity.
Qed.

Lemma loop_alike (target : str) (l l' : list row) (st st' : state) :
  Forall2 alike l l' -> same_state st st' ->
  ComputePlace.loop target l st = ComputePlace.loop target l' st'.
Proof.
  intros H. revert st st'.
  induction H as [|r r' l l' Hr _ IH]; intros st st' Hst; simpl.
  - reflexivity.
  - destruct Hr as ((s & s' & Hs & Hs' & Hss) & Hd & Hn).
    unfold score, disqualified in *. rewrite Hs, Hs', Hd, Hn. simpl.
    pose proof (show_same_state _ _ _ _ (get r_disqual false r') Hst Hss) as Hsh.
    destruct (ComputePlace.name_match _ _).
    + f_equal. apply Hsh.
    + apply IH, advance_same_state, Hsh.
Qed.

Lemma app_same_length {T : Type} (a b x y : list T) :
  List.length a = List.length b -> a ++ x = b ++ y -> a = b /\ x = y.
Proof.
  revert b. induction a as [|h a IH]; intros [|h' b] L H; simpl in *;
    try discriminate; [tauto|].
  injection H as -> H. destruct (IH b) as [-> ->]; [lia | exact H | tauto].
Qed.

Lemma int_of_bool_inj (b b' : bool) : int_of_bool b = int_of_bool b' -> b = b'.
Proof. destruct b, b'; simpl; congruence. Qed.

(** Two cohort rows whose sort keys are tied and free of NaN are alike. *)
Lemma tied_rows_alike (r r' : row) (k k' : key) :
  ComputePlace.sort_key r = Ok k -> ComputePlace.sort_key r' = Ok k' ->
  ordered_key k -> ordered_key k' ->
  key_lt k k' = false -> key_lt k' k = false ->
  alike r r'.
Proof.
  rewrite !sort_key_score. intros Hk Hk' Ok1 Ok2 H1 H2.
  pose proof (key_lt_neither k k' Ok1 Ok2 H1 H2) as Hc.
  destruct (score r) as [s|] eqn:Es; simpl in Hk; [|discriminate].
  destruct (score r') as [s'|] eqn:Es'; simpl in Hk'; [|discriminate].
  injection Hk as <-. injection Hk' as <-.
  unfold code in Hc. unfold ordered_key in Ok1, Ok2.
  apply app_same_length in Hc; [|rewrite !rank_length; reflexivity].
  destruct Hc as [Hr Hrest]. injection Hrest as Hd _ _ Hn.
  repeat split.
  - exists s, s'. split; [exact Es|]. split; [exact Es'|].
    apply same_score_opp, rank_eq; assumption.
  - apply int_of_bool_inj, Hd.
  - apply map_of_N_inj, Hn.
Qed.

(** ** The order of the input list *)

Lemma filter_permuted {T : Type} (f : T -> bool) (l l' : list T) :
  Permutation l l' -> Permutation (filter f l) (filter f l').
Proof.
  induction 1 as [|x l l' _ IH|x y l|l l' l'' _ IH1 _ IH2]; simpl.
  - constructor.
  - destruct (f x); [constructor|]; exact IH.
  - destruct (f x), (f y); try reflexivity. apply perm_swap.
  - etransitivity; eassumption.
Qed.

Lemma decorate_permuted {K T : Type} (f : T -> result K) (l l' : list T) :
  Permutation l l' ->
  forall kl, decorate f l = Ok kl ->
  exists kl', decorate f l' = Ok kl' /\ Permutation kl kl'.
Proof.
  induction 1 as [|x l l' _ IH|x y l|l l' l'' _ IH1 _ IH2]; simpl; intros kl H.
  - injection H as <-. exists []. split; constructor.
  - destruct (f x) as [k|]; simpl in *; [|discriminate].
    destruct (decorate f l) as [kl0|]; simpl in H; [|discriminate].
    injection H as <-. destruct (IH _ eq_refl) as (kl' & -> & P).
    simpl. eexists. split; [reflexivity | constructor; exact P].
  - destruct (f y) as [ky|]; simpl in *; [|discriminate].
    destruct (f x) as [kx|]; simpl in *; [|discriminate].
    destruct (decorate f l) as [kl0|]; simpl in *; [|discriminate].
    injection H as <-. eexists. split; [reflexivity | apply perm_swap].
  - destruct (IH1 _ H) as (kl' & H' & P1).
    destruct (IH2 _ H') as (kl'' & H'' & P2).
    exists kl''. split; [exact H'' | etransitivity; eassumption].
Qed.

Lemma sort_key_raise (r : row) (e : exn) :
  ComputePlace.sort_key r = Raise e -> e = OverflowError.
Proof.
  rewrite sort_key_score. destruct (score r) as [s|e'] eqn:E; simpl.
  - discriminate.
  - intros H. injection H as <-. exact (score_raise _ _ E).
Qed.

Lemma decorate_sort_key_raise (l : list row) (e : exn) :
  decorate ComputePlace.sort_key l = Raise e -> e = OverflowError.
Proof.
  intros H. destruct (decorate_raise _ _ _ H) as (r & _ & Hr).
  exact (sort_key_raise _ _ Hr).
Qed.

Lemma sort_key_ordered (r : row) (k : key) :
  ComputePlace.sort_key r = Ok k ->
  (forall s, score r = Ok s -> is_nan s = false) ->
  ordered_key k.
Proof.
  rewrite sort_key_score. destruct (score r) as [s|]; simpl; [|discriminate].
  intros H Hs. injection H as <-. simpl.
  rewrite is_nan_opp. apply Hs. reflexivity.
Qed.

(** With a NaN score neither key is smaller than the other, the sort
    leaves both orders of [nan_rows] as they are, and the place of "B"
    is 2 in one order and 1 in the other. *)
Lemma nan_score_breaks_permutation :
  rev nan_rows = [ Row (Some (u "B")) (Some 1) (Some (NFloat 1)) None None;
                   Row (Some (u "A")) (Some 1) (Some (NFloat nan)) None None ] /\
  sorted_cohort nan_rows 1 = Ok nan_rows /\
  sorted_cohort (rev nan_rows) 1 = Ok (rev nan_rows) /\
  ComputePlace.compute_place nan_rows (u "B") 1 = Ok (Some 2) /\
  ComputePlace.compute_place (rev nan_rows) (u "B") 1 = Ok (Some 1).
Proof. repeat split; vm_compute; reflexivity. Qed.

(** C10, amended: when no row of the target form has a NaN score,
    [compute_place] returns the same place, or raises the same
    exception, on a row list and on every permutation of it.  (With a
    NaN score the keys are not ordered by [<] and the sorted order, hence
    the place, depends on the input order.) *)
Theorem permutation_invariant (rows rows' : list row) (name : str) (form : Z) :
  Permutation rows rows' ->
  no_nan_scores form rows ->
  ComputePlace.compute_place rows name form
  = ComputePlace.compute_place rows' name form.
Proof.
  intros P Hnan.
  pose proof (filter_permuted (form_is form) _ _ P) as PF.
  unfold ComputePlace.compute_place, list_sort.
  destruct (decorate ComputePlace.sort_key (filter (form_is form) rows))
    as [kl|e] eqn:E; simpl.
  - destruct (decorate_permuted _ _ _ PF _ E) as (kl' & E' & Pk).
    rewrite E'. simpl.
    destruct (decorate_ok _ _ _ E) as [Hsnd Hkeys].
    assert (Hdom : Forall (fun p => ordered_key (fst p)) kl).
    { unfold no_nan_scores in Hnan. rewrite Forall_forall in *. intros [k r] Hin.
      pose proof (Hkeys _ Hin) as Hk. simpl in *.
      apply (sort_key_ordered r k Hk).
      assert (Hr : In r (filter (form_is form) rows))
        by (rewrite <- Hsnd; apply (in_map snd _ _ Hin)).
      apply filter_In in Hr. destruct Hr as [Hr Hf].
      exact (Hnan r Hr Hf). }
    pose proof (sort_pairs_permuted key_lt ordered_key key_lt_irrefl
                  key_lt_asym key_lt_negtrans kl kl' Pk Hdom) as T.
    assert (Hkeys' : Forall (fun p => ComputePlace.sort_key (snd p) = Ok (fst p))
                       (sort_pairs key_lt kl')).
    { eapply Permutation_Forall; [|exact Hkeys].
      etransitivity; [exact Pk | symmetry; apply sort_pairs_perm]. }
    assert (Hkeys1 : Forall (fun p => ComputePlace.sort_key (snd p) = Ok (fst p))
                       (sort_pairs key_lt kl)).
    { eapply Permutation_Forall; [|exact Hkeys]. symmetry. apply sort_pairs_perm. }
    assert (Hdom' : Forall (fun p => ordered_key (fst p)) (sort_pairs key_lt kl')).
    { eapply Permutation_Forall; [|exact Hdom].
      etransitivity; [exact Pk | symmetry; apply sort_pairs_perm]. }
    assert (Hdom1 : Forall (fun p => ordered_key (fst p)) (sort_pairs key_lt kl)).
    { eapply Permutation_Forall; [|exact Hdom]. symmetry. apply sort_pairs_perm. }
    apply loop_alike; [|repeat split; left; reflexivity].
    clear - T Hkeys' Hkeys1 Hdom' Hdom1.
    induction T as [|p q l1 l2 [T1 T2] _ IH]; simpl; [constructor|].
    inversion Hkeys'; inversion Hkeys1; inversion Hdom'; inversion Hdom1; subst.
    constructor; [|apply IH; assumption].
    eapply tied_rows_alike; eassumption.
  - pose proof (decorate_sort_key_raise _ _ E) as ->.
    destruct (decorate ComputePlace.sort_key (filter (form_is form) rows'))
      as [kl'|e'] eqn:E'; simpl.
    + destruct (decorate_permuted _ _ _ (Permutation_sym PF) _ E')
        as (kl & E'' & _). congruence.
    + rewrite (decorate_sort_key_raise _ _ E'). reflexivity.
Qed.

Lemma permutation_invariant_witness :
  Permutation example_rows (rev example_rows) /\
  ComputePlace.compute_place example_rows (u "D") 1
  = ComputePlace.compute_place (rev example_rows) (u "D") 1.
Proof.
  assert (P : Permutation example_rows (rev example_rows))
    by apply Permutation_rev.
  split; [exact P|].
  apply (permutation_invariant example_rows (rev example_rows) (u "D") 1 P).
  repeat constructor; intros _ s H; vm_compute in H;
    injection H as <-; reflexivity.
Defined.

(** * Further properties of the code *)

(** ** The fetch cache over several calls *)

(** X1: a successful refresh at time [now] stores the downloaded rows
    with [fetched_at = now], and every call at a time [later] with
    [later - now < CACHE_TTL_SECONDS] returns those rows and leaves the
    cache as it is, whatever the network would answer. *)
Theorem refresh_then_hit (CACHE_TTL_SECONDS : Z) (cache : App.Cache)
  (now later : float) (net net' : App.http) (rows : list row) :
  App.fresh CACHE_TTL_SECONDS cache now = false ->
  App.download net = Ok rows ->
  float_lt_int (later - now)%float CACHE_TTL_SECONDS = true ->
  App._fetch_data CACHE_TTL_SECONDS cache now net
  = (App.mkCache now (Some rows), Ok rows) /\
  App._fetch_data CACHE_TTL_SECONDS (App.mkCache now (Some rows)) later net'
  = (App.mkCache now (Some rows), Ok rows).
Proof.
  intros Hstale Hd Hlater. unfold App._fetch_data.
  rewrite Hstale, Hd. split; [reflexivity|].
  unfold App.fresh. simpl. rewrite Hlater. reflexivity.
Qed.

Lemma refresh_then_hit_witness :
  App._fetch_data 30 App.empty_cache 1000
    (App.Response 200 (Some (App.JList example_rows)))
  = (filled_cache, Ok example_rows) /\
  App._fetch_data 30 filled_cache 1029.5 App.NoAnswer
  = (filled_cache, Ok example_rows).
Proof.
  apply (refresh_then_hit 30 App.empty_cache 1000 1029.5
           (App.Response 200 (Some (App.JList example_rows))) App.NoAnswer
           example_rows).
  - reflexivity.
  - reflexivity.
  - vm_compute. reflexivity.
Defined.

(** X2: whatever the cache, the time and the network, a call of
    [_fetch_data] leaves the cache untouched or replaces it by the rows it
    just downloaded, stamped with the time of the call; and the rows a
    call returns are the rows the cache holds after it. *)
Theorem fetch_returns_what_is_cached (CACHE_TTL_SECONDS : Z)
  (cache : App.Cache) (now : float) (net : App.http) :
  let cache' := fst (App._fetch_data CACHE_TTL_SECONDS cache now net) in
  let answer := snd (App._fetch_data CACHE_TTL_SECONDS cache now net) in
  (cache' = cache \/
   exists rows, App.download net = Ok rows /\
                cache' = App.mkCache now (Some rows)) /\
  match answer with
  | Ok rows => App.data cache' = Some rows
  | Raise _ => cache' = cache
  end.
Proof.
  unfold App._fetch_data.
  destruct (App.fresh CACHE_TTL_SECONDS cache now) eqn:F; simpl.
  - split; [left; reflexivity|].
    unfold App.fresh in F. unfold App.get_data.
    destruct (App.data cache); [reflexivity | discriminate].
  - destruct (App.download net) as [rows|e]; simpl.
    + split; [right; exists rows; split; reflexivity | reflexivity].
    + split; [left; reflexivity | reflexivity].
Qed.

(** ** The counter and the places *)

Lemma count_ranked_cons (r : row) (l : list row) :
  count_ranked (r :: l)
  = (if disqualified r then 0 else 1) + count_ranked l.
Proof.
  unfold count_ranked. cbn [filter].
  destruct (disqualified r); cbn [negb List.length]; lia.
Qed.

Lemma count_ranked_nonneg (l : list row) : 0 <= count_ranked l.
Proof. unfold count_ranked. lia. Qed.

Lemma count_ranked_app (l1 l2 : list row) :
  count_ranked (l1 ++ l2) = count_ranked l1 + count_ranked l2.
Proof.
  unfold count_ranked. rewrite filter_app, length_app. lia.
Qed.

Lemma count_ranked_permuted (l l' : list row) :
  Permutation l l' -> count_ranked l = count_ranked l'.
Proof.
  intros P. unfold count_ranked. f_equal.
  apply Permutation_length, filter_permuted, P.
Qed.

Lemma counter_show (st : state) (s : float) (d : bool) :
  non_disqual_i (show st s d) = non_disqual_i st.
Proof. unfold show. destruct (_ && _); reflexivity. Qed.

Lemma counter_advance (st : state) (d : bool) :
  non_disqual_i (advance st d) = non_disqual_i st + (if d then 0 else 1).
Proof. unfold advance. destruct d; simpl; lia. Qed.

Lemma walk_counter (l : list row) (st st' : state) :
  walk l st = Ok st' ->
  non_disqual_i st' = non_disqual_i st + count_ranked l.
Proof.
  revert st. induction l as [|r l IH]; simpl; intros st H.
  - injection H as <-. unfold count_ranked. cbn [filter List.length]. lia.
  - unfold after in H. destruct (score r) as [s|]; simpl in H; [|discriminate].
    rewrite (IH _ H), counter_advance, counter_show, count_ranked_cons. lia.
Qed.

(** X3: a row that is shown a new place is shown 1 plus the number of
    rows before it in the sorted cohort that are not disqualified
    (competition ranking: after two rows tied at place 1 comes place 3). *)
Theorem new_place_counts_rows_before (rows pre post : list row) (r : row)
  (form : Z) :
  sorted_cohort rows form = Ok (pre ++ r :: post) ->
  exists (st : state) (s : float),
    walk pre initial = Ok st /\ score r = Ok s /\
    non_disqual_i st = count_ranked pre /\
    (disqualified r = false ->
     changed s (last_non_disqual_sum_rank st) = true ->
     displayed st r = Ok (Some (count_ranked pre + 1))).
Proof.
  intros Hs. destruct (sorted_cohort_ok _ _ _ Hs) as [_ F].
  apply Forall_app in F. destruct F as [Fpre F].
  inversion F as [|? ? [s Hscore] _]; subst.
  destruct (walk_total pre initial Fpre) as [st Hst].
  exists st, s. pose proof (walk_counter _ _ _ Hst) as Hc. simpl in Hc.
  repeat split; try assumption.
  intros Hd Hch. unfold displayed. rewrite Hscore, Hd. simpl.
  rewrite show_new by exact Hch. simpl. rewrite Hc. reflexivity.
Qed.

Lemma new_place_counts_rows_before_witness :
  sorted_cohort example_rows 1 = Ok example_rows /\
  exists (st : state) (s : float),
    walk (firstn 3 example_rows) initial = Ok st /\
    score (Row (Some (u "D")) (Some 1) (Some (NInt 80)) None None) = Ok s /\
    non_disqual_i st = 2 /\
    displayed st (Row (Some (u "D")) (Some 1) (Some (NInt 80)) None None)
    = Ok (Some 3).
Proof.
  assert (H : sorted_cohort example_rows 1 = Ok example_rows)
    by (vm_compute; reflexivity).
  split; [exact H|].
  destruct (new_place_counts_rows_before example_rows (firstn 3 example_rows) []
              (Row (Some (u "D")) (Some 1) (Some (NInt 80)) None None) 1 H)
    as (st & s & Hw & Hs & Hc & Hp).
  exists st, s. split; [exact Hw|]. split; [exact Hs|]. split; [exact Hc|].
  apply Hp; [reflexivity|].
  vm_compute in Hw. injection Hw as <-.
  vm_compute in Hs. injection Hs as <-.
  vm_compute. reflexivity.
Defined.

Lemma place_in_range_show (st : state) (s : float) (d : bool) :
  place_in_range st ->
  0 <= non_disqual_i st /\
  forall p, last_place (show st s d) = Some p ->
            1 <= p <= non_disqual_i st + (if d then 0 else 1).
Proof.
  intros [H0 H]. split; [exact H0|]. intros p. unfold show.
  destruct (changed s _ && negb d) eqn:E; simpl.
  - apply andb_true_iff in E. destruct E as [_ E]. destruct d; [discriminate|].
    intros Hp. injection Hp as <-. lia.
  - intros Hp. specialize (H p Hp). destruct d; lia.
Qed.

Lemma place_in_range_after (st st' : state) (r : row) :
  place_in_range st -> after st r = Ok st' -> place_in_range st'.
Proof.
  intros Hst H. unfold after in H.
  destruct (score r) as [s|]; simpl in H; [|discriminate]. injection H as <-.
  destruct (place_in_range_show st s (disqualified r) Hst) as [H0 Hp].
  split.
  - rewrite counter_advance, counter_show. destruct (disqualified r); lia.
  - intros p. rewrite last_place_advance, counter_advance, counter_show.
    apply Hp.
Qed.

Lemma loop_place_in_range (target : str) (l : list row) (st : state) (p : Z) :
  place_in_range st ->
  ComputePlace.loop target l st = Ok (Some p) ->
  1 <= p <= non_disqual_i st + count_ranked l.
Proof.
  revert st. induction l as [|r l IH]; simpl; intros st Hst H; [discriminate|].
  fold (score r) in H. fold (disqualified r) in H.
  destruct (score r) as [s|] eqn:Es; simpl in H; [|discriminate].
  rewrite count_ranked_cons. pose proof (count_ranked_nonneg l).
  destruct (ComputePlace.name_match _ _).
  - injection H as H.
    destruct (place_in_range_show st s (disqualified r) Hst) as [_ Hp].
    specialize (Hp p H). destruct (disqualified r); lia.
  - assert (Ha : after st r = Ok (advance (show st s (disqualified r))
                                            (disqualified r)))
      by (unfold after; rewrite Es; reflexivity).
    pose proof (place_in_range_after _ _ _ Hst Ha) as Hst'.
    specialize (IH _ Hst' H).
    rewrite counter_advance, counter_show in IH. lia.
Qed.

(** X4: a place that [compute_place] returns is at least 1 and at most
    the number of rows of the target form that are not disqualified; so a
    cohort in which every row is disqualified gives no place to anyone. *)
Theorem place_within_cohort (rows : list row) (name : str) (form p : Z) :
  ComputePlace.compute_place rows name form = Ok (Some p) ->
  1 <= p <= count_ranked (filter (form_is form) rows).
Proof.
  rewrite compute_place_sorted.
  destruct (sorted_cohort rows form) as [l|] eqn:E; simpl; [|discriminate].
  intros H. destruct (sorted_cohort_ok _ _ _ E) as [P _].
  rewrite <- (count_ranked_permuted _ _ P).
  assert (Hi : place_in_range initial)
    by (split; simpl; [lia | discriminate]).
  pose proof (loop_place_in_range _ _ _ _ Hi H) as B. simpl in B. lia.
Qed.

Lemma place_within_cohort_witness :
  ComputePlace.compute_place example_rows (u "D") 1 = Ok (Some 3) /\
  1 <= 3 <= count_ranked (filter (form_is 1) example_rows).
Proof.
  assert (H : ComputePlace.compute_place example_rows (u "D") 1 = Ok (Some 3))
    by (vm_compute; reflexivity).
  split; [exact H | exact (place_within_cohort example_rows (u "D") 1 3 H)].
Defined.

Lemma show_not_below (st : state) (s : float) (d : bool) (p : Z) :
  place_in_range st -> last_place st = Some p ->
  exists p', last_place (show st s d) = Some p' /\ p <= p'.
Proof.
  intros [_ H] Hp. specialize (H p Hp). unfold show.
  destruct (changed s _ && negb d); simpl.
  - eexists. split; [reflexivity | lia].
  - exists p. split; [exact Hp | lia].
Qed.

Lemma walk_not_below (l : list row) (st st' : state) :
  place_in_range st -> walk l st = Ok st' ->
  place_in_range st' /\
  forall p, last_place st = Some p ->
            exists p', last_place st' = Some p' /\ p <= p'.
Proof.
  revert st. induction l as [|r l IH]; simpl; intros st Hst H.
  - injection H as <-. split; [exact Hst|].
    intros p Hp. exists p. split; [exact Hp | lia].
  - destruct (after st r) as [st1|] eqn:Ea; simpl in H; [|discriminate].
    pose proof (place_in_range_after _ _ _ Hst Ea) as Hst1.
    destruct (IH _ Hst1 H) as [Hst' Hmono]. split; [exact Hst'|].
    intros p Hp. unfold after in Ea.
    destruct (score r) as [s|]; simpl in Ea; [|discriminate].
    injection Ea as <-.
    destruct (show_not_below st s (disqualified r) p Hst Hp) as (p1 & Hp1 & L1).
    rewrite <- (last_place_advance _ (disqualified r)) in Hp1.
    destruct (Hmono p1 Hp1) as (p' & Hp' & L').
    exists p'. split; [exact Hp' | lia].
Qed.

(** X5: along the sorted cohort the places never go down and never go
    back to none: if a row shows place [p], every later row shows a
    place [p'] with [p <= p']. *)
Theorem places_never_decrease (rows l1 l2 l3 : list row) (q r : row)
  (form p : Z) :
  sorted_cohort rows form = Ok (l1 ++ q :: l2 ++ r :: l3) ->
  exists (st_q st_r : state),
    walk l1 initial = Ok st_q /\
    walk (l1 ++ q :: l2) initial = Ok st_r /\
    (displayed st_q q = Ok (Some p) ->
     exists p', displayed st_r r = Ok (Some p') /\ p <= p').
Proof.
  intros Hs. destruct (sorted_cohort_ok _ _ _ Hs) as [_ F].
  assert (F1 : Forall (fun x => exists f, score x = Ok f) (l1 ++ q :: l2)).
  { rewrite Forall_forall in *. intros x Hx. apply F.
    rewrite in_app_iff in *. simpl in *. rewrite in_app_iff. tauto. }
  assert (Fr : exists sr, score r = Ok sr).
  { rewrite Forall_forall in F. apply F.
    rewrite in_app_iff. simpl. rewrite in_app_iff. simpl. tauto. }
  destruct Fr as [sr Hr].
  destruct (walk_total _ initial F1) as [st_r Hst_r].
  pose proof Hst_r as Hw. rewrite walk_app in Hw.
  destruct (walk l1 initial) as [st_q|] eqn:Hst_q; simpl in Hw; [|discriminate].
  exists st_q, st_r. split; [reflexivity|]. split; [exact Hst_r|].
  intros Hq.
  assert (Hi : place_in_range initial)
    by (split; simpl; [lia | discriminate]).
  destruct (walk_not_below _ _ _ Hi Hst_q) as [Hiq _].
  destruct (after st_q q) as [st1|] eqn:Ea; simpl in Hw; [|discriminate].
  pose proof (place_in_range_after _ _ _ Hiq Ea) as Hi1.
  destruct (walk_not_below _ _ _ Hi1 Hw) as [Hir Hmono].
  assert (Hp1 : last_place st1 = Some p).
  { unfold after in Ea. unfold displayed in Hq.
    destruct (score q) as [sq|]; simpl in *; [|discriminate].
    injection Ea as <-. rewrite last_place_advance. congruence. }
  destruct (Hmono p Hp1) as (p1 & Hp1' & L1).
  destruct (show_not_below st_r sr (disqualified r) p1 Hir Hp1') as (p' & Hp' & L').
  exists p'. split; [|lia].
  unfold displayed. rewrite Hr. simpl. rewrite Hp'. reflexivity.
Qed.

Lemma places_never_decrease_witness :
  sorted_cohort example_rows 1 = Ok example_rows /\
  exists (st_q st_r : state),
    walk [] initial = Ok st_q /\
    walk (firstn 3 example_rows) initial = Ok st_r /\
    exists p',
      displayed st_r (Row (Some (u "D")) (Some 1) (Some (NInt 80)) None None)
      = Ok (Some p') /\ 1 <= p'.
Proof.
  assert (H : sorted_cohort example_rows 1 = Ok example_rows)
    by (vm_compute; reflexivity).
  split; [exact H|].
  destruct (places_never_decrease example_rows []
              (firstn 2 (skipn 1 example_rows)) []
              (Row (Some (u "A")) (Some 1) (Some (NInt 100)) None None)
              (Row (Some (u "D")) (Some 1) (Some (NInt 80)) None None)
              1 1 H)
    as (st_q & st_r & Hq & Hr & Hp).
  exists st_q, st_r. split; [exact Hq|]. split; [exact Hr|].
  apply Hp. injection Hq as <-. vm_compute. reflexivity.
Defined.

(** ** Several rows that match *)

Lemma first_match_split {T : Type} (f : T -> bool) (l : list T) (x : T) :
  In x l -> f x = true ->
  exists pre y post,
    l = pre ++ y :: post /\ Forall (fun z => f z = false) pre /\ f y = true.
Proof.
  induction l as [|h l IH]; intros Hin Hx; [contradiction|].
  destruct (f h) eqn:Eh.
  - exists [], h, l. repeat split; [constructor | exact Eh].
  - destruct Hin as [->|Hin]; [congruence|].
    destruct (IH Hin Hx) as (pre & y & post & -> & Hpre & Hy).
    exists (h :: pre), y, post. repeat split; [constructor; assumption | exact Hy].
Qed.

(** X6: when a row of the target form matches the target name, the place
    returned is the one shown by the first matching row of the sorted
    cohort; rows that match further down, and all rows after the first
    match, have no effect. *)
Theorem first_match_wins (rows l : list row) (r : row) (name : str) (form : Z) :
  sorted_cohort rows form = Ok l ->
  In r rows -> form_is form r = true ->
  matches (ComputePlace.norm name) r = true ->
  exists (pre post : list row) (first : row) (st : state),
    l = pre ++ first :: post /\
    Forall (fun q => matches (ComputePlace.norm name) q = false) pre /\
    matches (ComputePlace.norm name) first = true /\
    walk pre initial = Ok st /\
    ComputePlace.compute_place rows name form = displayed st first /\
    forall l', ComputePlace.loop (ComputePlace.norm name) (pre ++ first :: l')
                 initial = displayed st first.
Proof.
  intros Hs Hin Hf Hm.
  destruct (sorted_cohort_ok _ _ _ Hs) as [P F].
  assert (Hl : In r l).
  { apply (Permutation_in _ (Permutation_sym P)), filter_In. tauto. }
  destruct (first_match_split _ l r Hl Hm) as (pre & y & post & -> & Hpre & Hy).
  apply Forall_app in F. destruct F as [Fpre _].
  destruct (walk_total pre initial Fpre) as [st Hst].
  exists pre, post, y, st. repeat split; try assumption.
  - rewrite (compute_place_first_match _ _ _ _ _ _ Hs Hpre Hy), Hst. reflexivity.
  - intros l'. rewrite loop_app by exact Hpre. rewrite Hst. simpl.
    apply loop_at_match, Hy.
Qed.

Lemma first_match_wins_witness :
  sorted_cohort example_with_others_2 1 = Ok example_rows /\
  exists (pre post : list row) (first : row) (st : state),
    example_rows = pre ++ first :: post /\
    walk pre initial = Ok st /\
    ComputePlace.compute_place example_with_others_2 (u "c") 1
    = displayed st first.
Proof.
  assert (H : sorted_cohort example_with_others_2 1 = Ok example_rows)
    by (vm_compute; reflexivity).
  split; [exact H|].
  destruct (first_match_wins example_with_others_2 example_rows
              (Row (Some (u "C")) (Some 1) (Some (NInt 90)) (Some true) None)
              (u "c") 1 H)
    as (pre & post & first & st & Hl & _ & _ & Hw & Hp & _).
  - simpl. tauto.
  - reflexivity.
  - vm_compute. reflexivity.
  - exists pre, post, first, st. repeat split; assumption.
Defined.

(** ** The order of the walk *)

Section SortSorted.
Context {K A : Type}.
Variable lt : K -> K -> bool.
Variable D : K -> Prop.
Hypothesis lt_asym : forall x y, D x -> D y -> lt x y = true -> lt y x = false.
Hypothesis lt_negtrans : forall x y z, D x -> D y -> D z ->
  lt x y = false -> lt y z = false -> lt x z = false.

(** The second element does not sort before the first. *)
Let not_before (p q : K * A) : Prop := lt (fst q) (fst p) = false.

Let dom (p : K * A) : Prop := D (fst p).

Lemma insert_sorted (x : K * A) (l : list (K * A)) :
  dom x -> Forall dom l ->
  StronglySorted not_before l -> StronglySorted not_before (insert lt x l).
Proof.
  intros Hx Hl Hs. induction Hs as [|y l Hs IH Hy]; simpl.
  - constructor; constructor.
  - inversion Hl as [|? ? Dy Dl]; subst.
    destruct (lt (fst y) (fst x)) eqn:E.
    + constructor; [apply IH, Dl|].
      eapply Permutation_Forall; [symmetry; apply insert_perm|].
      constructor; [|exact Hy]. apply lt_asym; assumption.
    + constructor; [constructor; assumption|].
      constructor; [exact E|].
      rewrite Forall_forall in *. intros z Hz.
      apply (lt_negtrans (fst z) (fst y) (fst x));
        try assumption; [apply Dl | apply Hy]; exact Hz.
Qed.

Lemma sort_pairs_sorted (l : list (K * A)) :
  Forall dom l -> StronglySorted not_before (sort_pairs lt l).
Proof.
  induction 1 as [|x l Hx Hl IH]; simpl; [constructor|].
  apply insert_sorted; [exact Hx | | exact IH].
  eapply Permutation_Forall; [symmetry; apply sort_pairs_perm | exact Hl].
Qed.

Lemma sorted_later (a b c : list (K * A)) (x y : K * A) :
  StronglySorted not_before (a ++ x :: b ++ y :: c) -> not_before x y.
Proof.
  induction a as [|h a IH]; simpl; intros H.
  - inversion H as [|? ? _ Hall]; subst.
    rewrite Forall_forall in Hall. apply Hall.
    rewrite in_app_iff. simpl. tauto.
  - inversion H; subst. apply IH. assumption.
Qed.

End SortSorted.

Lemma ltb_opp (a b : float) : (- a <? - b)%float = (b <? a)%float.
Proof.
  rewrite !FloatAxioms.ltb_spec, !opp_spec. unfold SFltb.
  destruct (Prim2SF a) as [sa|sa| |sa ma ea], (Prim2SF b) as [sb|sb| |sb mb eb];
    simpl; try reflexivity;
    try (destruct sa); try (destruct sb); try reflexivity;
    change (PosDef.Pos.compare_cont Eq mb ma) with (mb ?= ma)%positive;
    change (PosDef.Pos.compare_cont Eq ma mb) with (ma ?= mb)%positive;
    rewrite (Z.compare_antisym ea eb), (Pos.compare_antisym ma mb);
    destruct (ea ?= eb), (ma ?= mb)%positive; reflexivity.
Qed.

Lemma eqb_opp (a b : float) : (- a =? - b)%float = (b =? a)%float.
Proof.
  rewrite !FloatAxioms.eqb_spec, !opp_spec. unfold SFeqb.
  destruct (Prim2SF a) as [sa|sa| |sa ma ea], (Prim2SF b) as [sb|sb| |sb mb eb];
    simpl; try reflexivity;
    try (destruct sa); try (destruct sb); try reflexivity;
    change (PosDef.Pos.compare_cont Eq mb ma) with (mb ?= ma)%positive;
    change (PosDef.Pos.compare_cont Eq ma mb) with (ma ?= mb)%positive;
    rewrite (Z.compare_antisym ea eb), (Pos.compare_antisym ma mb);
    destruct (ea ?= eb), (ma ?= mb)%positive; reflexivity.
Qed.

Lemma eqb_not_ltb (a b : float) :
  (a =? b)%float = true -> (a <? b)%float = false.
Proof.
  rewrite FloatAxioms.eqb_spec, FloatAxioms.ltb_spec. unfold SFeqb, SFltb.
  destruct (SFcompare (Prim2SF a) (Prim2SF b)) as [[]|]; congruence.
Qed.

(** In the sorted cohort no row has a smaller key than a row before it. *)
Lemma sorted_cohort_keys (rows pre mid post : list row) (q r : row) (form : Z) :
  sorted_cohort rows form = Ok (pre ++ q :: mid ++ r :: post) ->
  no_nan_scores form rows ->
  exists kq kr,
    ComputePlace.sort_key q = Ok kq /\ ComputePlace.sort_key r = Ok kr /\
    key_lt kr kq = false.
Proof.
  unfold sorted_cohort, list_sort. intros Hs Hnan.
  destruct (decorate ComputePlace.sort_key (filter (form_is form) rows))
    as [kl|] eqn:E; simpl in Hs; [|discriminate].
  injection Hs as Hs.
  destruct (decorate_ok _ _ _ E) as [Hsnd Hkeys].
  assert (Hdom : Forall (fun p => ordered_key (fst p)) kl).
  { unfold no_nan_scores in Hnan. rewrite Forall_forall in *. intros [k x] Hin.
    pose proof (Hkeys _ Hin) as Hk. simpl in *.
    apply (sort_key_ordered x k Hk).
    assert (Hx : In x (filter (form_is form) rows))
      by (rewrite <- Hsnd; apply (in_map snd _ _ Hin)).
    apply filter_In in Hx. destruct Hx as [Hx Hf]. exact (Hnan x Hx Hf). }
  pose proof (sort_pairs_sorted key_lt ordered_key key_lt_asym key_lt_negtrans
                kl Hdom) as S.
  assert (Hkeys' : Forall (fun p => ComputePlace.sort_key (snd p) = Ok (fst p))
                     (sort_pairs key_lt kl)).
  { eapply Permutation_Forall; [|exact Hkeys]. symmetry. apply sort_pairs_perm. }
  apply map_eq_app in Hs. destruct Hs as (s1 & s2 & Hsl & _ & Hs).
  apply map_eq_cons in Hs. destruct Hs as (pq & s3 & -> & Hq & Hs).
  apply map_eq_app in Hs. destruct Hs as (s4 & s5 & -> & _ & Hs).
  apply map_eq_cons in Hs. destruct Hs as (pr & s6 & -> & Hr & _).
  rewrite Hsl in S, Hkeys'.
  pose proof (sorted_later key_lt ordered_key _ _ _ _ _ S) as L. simpl in L.
  rewrite Forall_forall in Hkeys'.
  exists (fst pq), (fst pr). repeat split; [| |exact L].
  - rewrite <- Hq. apply Hkeys'. rewrite in_app_iff. simpl. tauto.
  - rewrite <- Hr. apply Hkeys'.
    rewrite in_app_iff. simpl. rewrite in_app_iff. simpl. tauto.
Qed.

(** X7: when no score of the cohort is NaN, the loop walks the cohort in
    order of score, highest first: no row has a higher score than a row
    walked before it. *)
Theorem scores_never_increase (rows pre mid post : list row) (q r : row)
  (form : Z) :
  sorted_cohort rows form = Ok (pre ++ q :: mid ++ r :: post) ->
  no_nan_scores form rows ->
  exists sq sr,
    score q = Ok sq /\ score r = Ok sr /\ (sq <? sr)%float = false.
Proof.
  intros Hs Hnan.
  destruct (sorted_cohort_keys _ _ _ _ _ _ _ Hs Hnan) as (kq & kr & Hq & Hr & L).
  rewrite sort_key_score in Hq, Hr.
  destruct (score q) as [sq|]; simpl in Hq; [|discriminate].
  destruct (score r) as [sr|]; simpl in Hr; [|discriminate].
  injection Hq as <-. injection Hr as <-.
  exists sq, sr. split; [reflexivity|]. split; [reflexivity|].
  unfold key_lt in L. rewrite eqb_opp, ltb_opp in L.
  destruct (sq =? sr)%float eqn:E; simpl in L.
  - apply eqb_not_ltb, E.
  - exact L.
Qed.

Lemma scores_never_increase_witness :
  sorted_cohort (rev example_rows) 1 = Ok example_rows /\
  exists sq sr,
    score (Row (Some (u "B")) (Some 1) (Some (NInt 100)) None None) = Ok sq /\
    score (Row (Some (u "D")) (Some 1) (Some (NInt 80)) None None) = Ok sr /\
    (sq <? sr)%float = false.
Proof.
  assert (H : sorted_cohort (rev example_rows) 1 = Ok example_rows)
    by (vm_compute; reflexivity).
  split; [exact H|].
  apply (scores_never_increase (rev example_rows) (firstn 1 example_rows)
           (firstn 1 (skipn 2 example_rows)) [] _ _ 1 H).
  repeat constructor; intros _ s Hs; vm_compute in Hs;
    injection Hs as <-; reflexivity.
Defined.

(** X8: when no score of the cohort is NaN, among rows with equal scores
    the rows that are not disqualified are walked first: a row that
    follows a disqualified row of the same score is disqualified too. *)
Theorem disqualified_last_among_ties (rows pre mid post : list row) (q r : row)
  (form : Z) :
  sorted_cohort rows form = Ok (pre ++ q :: mid ++ r :: post) ->
  no_nan_scores form rows ->
  exists sq sr,
    score q = Ok sq /\ score r = Ok sr /\
    ((sq =? sr)%float = true -> disqualified q = true ->
     disqualified r = true).
Proof.
  intros Hs Hnan.
  destruct (sorted_cohort_keys _ _ _ _ _ _ _ Hs Hnan) as (kq & kr & Hq & Hr & L).
  rewrite sort_key_score in Hq, Hr.
  destruct (score q) as [sq|]; simpl in Hq; [|discriminate].
  destruct (score r) as [sr|]; simpl in Hr; [|discriminate].
  injection Hq as <-. injection Hr as <-.
  exists sq, sr. split; [reflexivity|]. split; [reflexivity|].
  intros E Hdq. unfold key_lt in L. rewrite eqb_opp, E in L. simpl in L.
  unfold disqualified in *. rewrite Hdq in L.
  destruct (get r_disqual false r); [reflexivity | discriminate].
Qed.

Lemma disqualified_last_among_ties_witness :
  sorted_cohort tied_rows 1 = Ok (rev tied_rows) /\
  exists sq sr,
    score (Row (Some (u "A")) (Some 1) (Some (NInt 7)) (Some true) None) = Ok sq /\
    score (Row (Some (u "Z")) (Some 1) (Some (NFloat 7)) (Some true) None) = Ok sr /\
    ((sq =? sr)%float = true ->
     disqualified (Row (Some (u "A")) (Some 1) (Some (NInt 7)) (Some true) None)
     = true ->
     disqualified (Row (Some (u "Z")) (Some 1) (Some (NFloat 7)) (Some true) None)
     = true).
Proof.
  assert (H : sorted_cohort tied_rows 1 = Ok (rev tied_rows))
    by (vm_compute; reflexivity).
  split; [exact H|].
  apply (disqualified_last_among_ties tied_rows (firstn 1 (rev tied_rows)) []
           [] _ _ 1 H).
  repeat constructor; intros _ s Hs; vm_compute in Hs;
    injection Hs as <-; reflexivity.
Defined.

(** ** Names as sequences of words *)

Lemma split_lstrip (s : str) : split (lstrip s) = split s.
Proof.
  induction s as [|c s IH]; [reflexivity|].
  cbn [lstrip]. destruct (is_space c) eqn:E; [|reflexivity].
  rewrite IH. cbn [split]. rewrite E. reflexivity.
Qed.

Lemma split_spaces (ws : str) :
  Forall (fun c => is_space c = true) ws -> split ws = [].
Proof.
  induction 1 as [|c ws Hc _ IH]; [reflexivity|].
  cbn [split]. rewrite Hc. exact IH.
Qed.

Lemma at_gap_app_spaces (x ws : str) :
  Forall (fun c => is_space c = true) ws -> at_gap (x ++ ws) = at_gap x.
Proof.
  intros H. destruct x as [|c x]; [|reflexivity].
  simpl. destruct H as [|c ws Hc _]; [reflexivity | exact Hc].
Qed.

Lemma split_app_spaces (x ws : str) :
  Forall (fun c => is_space c = true) ws -> split (x ++ ws) = split x.
Proof.
  intros H. induction x as [|c x IH]; [apply split_spaces, H|].
  rewrite <- app_comm_cons. cbn [split].
  rewrite IH, at_gap_app_spaces by exact H. reflexivity.
Qed.

Lemma lstrip_spaces (s : str) :
  exists ws, s = ws ++ lstrip s /\ Forall (fun c => is_space c = true) ws.
Proof.
  induction s as [|c s (ws & IH & Hws)]; simpl.
  - exists []. split; [reflexivity | constructor].
  - destruct (is_space c) eqn:E.
    + exists (c :: ws). split; [simpl; f_equal; exact IH|].
      constructor; assumption.
    + exists []. split; [reflexivity | constructor].
Qed.

Lemma split_strip (s : str) : split (strip s) = split s.
Proof.
  unfold strip. rewrite <- (split_lstrip s).
  destruct (lstrip_spaces (rev (lstrip s))) as (ws & Hws & Hsp).
  apply (f_equal (@rev N)) in Hws.
  rewrite rev_involutive, rev_app_distr in Hws.
  rewrite Hws at 2. rewrite split_app_spaces; [reflexivity|].
  apply Forall_rev, Hsp.
Qed.

Lemma at_gap_lower (s : str) : at_gap (lower s) = at_gap s.
Proof. destruct s; simpl; [reflexivity | apply is_space_lower_cp]. Qed.

Lemma split_lower (s : str) : split (lower s) = map lower (split s).
Proof.
  induction s as [|c s IH]; [reflexivity|].
  cbn [lower map split]. fold (lower s).
  rewrite IH, is_space_lower_cp, at_gap_lower.
  destruct (is_space c); [reflexivity|].
  destruct (split s) as [|w ws]; [reflexivity|].
  cbn [map]. destruct (at_gap s); reflexivity.
Qed.

(** [norm] joins the lower-case words of the name with single spaces. *)
Lemma norm_words (s : str) : ComputePlace.norm s = join [space] (words s).
Proof.
  unfold ComputePlace.norm, words. rewrite split_lower, split_strip.
  reflexivity.
Qed.

Lemma split_words (s : str) : Forall word (split s).
Proof.
  induction s as [|c s IH]; [constructor|].
  cbn [split]. destruct (is_space c) eqn:E; [exact IH|].
  destruct (split s) as [|w ws].
  - repeat constructor; [discriminate | exact E].
  - inversion IH as [|? ? [Hw1 Hw2] Hws]; subst.
    destruct (at_gap s).
    + constructor; [|exact IH]. repeat constructor; [discriminate | exact E].
    + constructor; [|exact Hws]. split; [discriminate|].
      constructor; assumption.
Qed.

Lemma word_lower (w : str) : word w -> word (lower w).
Proof.
  intros [H1 H2]. split.
  - destruct w; [congruence | discriminate].
  - unfold lower. rewrite Forall_map.
    eapply Forall_impl; [|exact H2]. intros c Hc.
    rewrite is_space_lower_cp. exact Hc.
Qed.

Lemma words_are_words (s : str) : Forall word (words s).
Proof.
  unfold words. rewrite Forall_map.
  eapply Forall_impl; [|apply split_words]. apply word_lower.
Qed.

Lemma split_word (w : str) : word w -> split w = [w].
Proof.
  intros [H1 H2]. induction H2 as [|c w Hc Hw IH]; [congruence|].
  cbn [split]. rewrite Hc. destruct w as [|c' w']; [reflexivity|].
  rewrite IH by discriminate.
  inversion Hw as [|? ? Hc' _]; subst. simpl. rewrite Hc'. reflexivity.
Qed.

Lemma split_nil_at_gap (s : str) : split s = [] -> at_gap s = true.
Proof.
  destruct s as [|c s]; [reflexivity|]. cbn [split at_gap].
  destruct (is_space c); [reflexivity|].
  destruct (split s); [discriminate|]. destruct (at_gap s); discriminate.
Qed.

Lemma split_app_gap (a b : str) (c : N) :
  is_space c = true -> split (a ++ c :: b) = split a ++ split b.
Proof.
  intros Hc. induction a as [|x a IH].
  - cbn [app split]. rewrite Hc. reflexivity.
  - rewrite <- app_comm_cons. cbn [split]. rewrite IH.
    destruct (is_space x); [reflexivity|].
    assert (G : at_gap (a ++ c :: b) = at_gap a)
      by (destruct a; [exact Hc | reflexivity]).
    rewrite G. destruct (split a) as [|w ws] eqn:Ea.
    + rewrite (split_nil_at_gap a Ea). cbn [app].
      destruct (split b); reflexivity.
    + cbn [app]. destruct (at_gap a); reflexivity.
Qed.

Lemma split_join (ws : list str) :
  Forall word ws -> split (join [space] ws) = ws.
Proof.
  induction 1 as [|w ws Hw Hws IH]; [reflexivity|].
  destruct ws as [|w2 ws].
  - apply split_word, Hw.
  - change (join [space] (w :: w2 :: ws))
      with (w ++ space :: join [space] (w2 :: ws)).
    rewrite split_app_gap by reflexivity.
    rewrite IH, split_word by exact Hw. reflexivity.
Qed.

Lemma lower_cp_image (c : N) :
  lower_cp c = c \/
  (97 <= lower_cp c <= 122 \/ 224 <= lower_cp c <= 254 \/
   1072 <= lower_cp c <= 1119)%N.
Proof.
  unfold lower_cp.
  destruct ((65 <=? c) && (c <=? 90))%N eqn:E1.
  { right. rewrite andb_true_iff, !N.leb_le in E1. lia. }
  destruct ((192 <=? c) && (c <=? 222) && negb (c =? 215))%N eqn:E2.
  { right. rewrite !andb_true_iff, !N.leb_le in E2. lia. }
  destruct ((1024 <=? c) && (c <=? 1039))%N eqn:E3.
  { right. rewrite andb_true_iff, !N.leb_le in E3. lia. }
  destruct ((1040 <=? c) && (c <=? 1071))%N eqn:E4.
  { right. rewrite andb_true_iff, !N.leb_le in E4. lia. }
  left. reflexivity.
Qed.

Lemma lower_cp_fixed (c : N) :
  (97 <= c <= 122 \/ 224 <= c <= 254 \/ 1072 <= c <= 1119)%N ->
  lower_cp c = c.
Proof.
  intros H. unfold lower_cp.
  repeat match goal with
         | |- context [(?a <=? ?b)%N] => destruct (N.leb_spec a b); try lia
         | |- context [(?a =? ?b)%N] => destruct (N.eqb_spec a b); try lia
         end; reflexivity.
Qed.

Lemma lower_cp_idem (c : N) : lower_cp (lower_cp c) = lower_cp c.
Proof.
  destruct (lower_cp_image c) as [H|H].
  - rewrite H. exact H.
  - apply lower_cp_fixed, H.
Qed.

Lemma lower_idem (s : str) : lower (lower s) = lower s.
Proof.
  unfold lower. rewrite map_map. apply map_ext, lower_cp_idem.
Qed.

Lemma words_of_words (s : str) : map lower (words s) = words s.
Proof.
  unfold words. rewrite map_map. apply map_ext, lower_idem.
Qed.

(** X9: normalizing is idempotent: a normalized name is its own normal
    form. *)
Theorem norm_idempotent (s : str) :
  ComputePlace.norm (ComputePlace.norm s) = ComputePlace.norm s.
Proof.
  rewrite (norm_words (ComputePlace.norm s)), (norm_words s).
  f_equal. unfold words at 1.
  rewrite split_join by apply words_are_words.
  apply words_of_words.
Qed.

(** X10: the normal form keeps all the words of a name, in their order
    and in lower case, and nothing else: splitting it gives back exactly
    the lower-case words of the name, and it is these words joined by
    single spaces. *)
Theorem norm_keeps_the_words (s : str) :
  split (ComputePlace.norm s) = map lower (split s) /\
  ComputePlace.norm s = join [space] (map lower (split s)) /\
  Forall word (split (ComputePlace.norm s)).
Proof.
  pose proof (norm_words s) as H. unfold words in H.
  split; [|split; [exact H|apply split_words]].
  rewrite H. apply split_join. apply (words_are_words s).
Qed.

Lemma join_app (a b : list str) :
  a <> [] -> b <> [] ->
  join [space] (a ++ b) = join [space] a ++ space :: join [space] b.
Proof.
  intros Ha Hb. induction a as [|w a IH]; [congruence|].
  destruct a as [|w2 a].
  - destruct b; [congruence | reflexivity].
  - change (join [space] ((w :: w2 :: a) ++ b))
      with (w ++ space :: join [space] ((w2 :: a) ++ b)).
    rewrite IH by discriminate.
    change (join [space] (w :: w2 :: a))
      with (w ++ space :: join [space] (w2 :: a)).
    rewrite <- !app_assoc. reflexivity.
Qed.

Lemma join_words_nil (ws : list str) :
  Forall word ws -> join [space] ws = [] -> ws = [].
Proof.
  intros H E. destruct H as [|w ws [Hw _] _]; [reflexivity|].
  destruct w; [congruence|]. destruct ws; discriminate.
Qed.

Lemma join_words_no_gap (ws : list str) (rest : str) :
  Forall word ws -> join [space] ws = space :: rest -> False.
Proof.
  intros H E. destruct H as [|w ws [Hw Hc] _]; [discriminate|].
  destruct w as [|c w]; [congruence|].
  inversion Hc as [|? ? Hsp _]; subst.
  assert (c = space) by (destruct ws; simpl in E; congruence).
  subst c. discriminate.
Qed.

(** X11: for a target that has at least one word, a row matches exactly
    when, in lower case, the words of its name begin with all the words
    of the target: whole words only, case and spacing ignored. *)
Theorem match_is_word_prefix (name : str) (r : row) :
  split name <> [] ->
  (matches (ComputePlace.norm name) r = true <->
   exists more, words (get r_name [] r) = words name ++ more).
Proof.
  intros Hne. unfold matches. rewrite name_match_iff, !norm_words.
  set (wr := words (get r_name [] r)). set (wt := words name).
  assert (Hwr : Forall word wr) by apply words_are_words.
  assert (Hwt : Forall word wt) by apply words_are_words.
  assert (Hwt' : wt <> []).
  { unfold wt, words. destruct (split name); [congruence | discriminate]. }
  split.
  - intros [E|[rest E]].
    + exists []. rewrite app_nil_r.
      rewrite <- (split_join wr Hwr), <- (split_join wt Hwt), E. reflexivity.
    + exists (split rest).
      rewrite <- (split_join wr Hwr), E, split_app_gap by reflexivity.
      rewrite split_join by exact Hwt. reflexivity.
  - intros [more E]. rewrite E. destruct more as [|m more].
    + left. rewrite app_nil_r. reflexivity.
    + right. exists (join [space] (m :: more)).
      apply join_app; [exact Hwt' | discriminate].
Qed.

Lemma match_is_word_prefix_witness :
  matches (ComputePlace.norm (u "ИВАНОВ  иван")) ivanov_row = true /\
  exists more,
    words (get r_name [] ivanov_row) = words (u "ИВАНОВ  иван") ++ more.
Proof.
  assert (H : split (u "ИВАНОВ  иван") <> []) by (vm_compute; discriminate).
  assert (M : matches (ComputePlace.norm (u "ИВАНОВ  иван")) ivanov_row = true)
    by (vm_compute; reflexivity).
  split; [exact M|].
  exact (proj1 (match_is_word_prefix (u "ИВАНОВ  иван") ivanov_row H) M).
Defined.

(** X12: a target with no word (empty, or whitespace only) matches
    exactly the rows whose name has no word either; it does not match
    every row. *)
Theorem blank_target_matches_blank_names (name : str) (r : row) :
  split name = [] ->
  (matches (ComputePlace.norm name) r = true <->
   split (get r_name [] r) = []).
Proof.
  intros Hb. unfold matches. rewrite name_match_iff, !norm_words.
  assert (Hn : words name = []) by (unfold words; rewrite Hb; reflexivity).
  rewrite Hn. cbn [join app].
  pose proof (words_are_words (get r_name [] r)) as Hw.
  split.
  - intros [E|[rest E]].
    + apply join_words_nil in E; [|exact Hw].
      unfold words in E. destruct (split (get r_name [] r)); [reflexivity|].
      discriminate.
    + destruct (join_words_no_gap _ _ Hw E).
  - intros E. left. unfold words. rewrite E. reflexivity.
Qed.

Lemma blank_target_matches_blank_names_witness :
  split (u "   ") = [] /\
  matches (ComputePlace.norm (u "   ")) blank_row = true /\
  matches (ComputePlace.norm (u "   ")) a_row = false.
Proof.
  assert (H : split (u "   ") = []) by reflexivity.
  split; [exact H|]. split.
  - apply (proj2 (blank_target_matches_blank_names (u "   ") blank_row H)).
    reflexivity.
  - vm_compute. reflexivity.
Defined.

(** ** The request handler *)

(** X13: a feed that downloads but on which [_compute_place] raises is
    cached all the same: the request that downloads it at time [now] is
    answered 500 and leaves the feed in the cache, and every request for
    [/api/place] at a time [later] with [later - now < CACHE_TTL_SECONDS]
    is answered the same 500 without asking the network. *)
Theorem failing_feed_is_cached (REG_API_URL TARGET_NAME : str)
  (TARGET_FORM CACHE_TTL_SECONDS : Z) (cache : App.Cache) (now later : float)
  (net net' : App.http) (rows : list row) (e : exn) :
  App.fresh CACHE_TTL_SECONDS cache now = false ->
  App.download net = Ok rows ->
  App._compute_place rows TARGET_NAME TARGET_FORM = Raise e ->
  float_lt_int (later - now)%float CACHE_TTL_SECONDS = true ->
  let answer :=
    Handler._send 500 (Handler.ErrorPayload e)
      (u "application/json; charset=utf-8") in
  Handler.do_GET REG_API_URL TARGET_NAME TARGET_FORM CACHE_TTL_SECONDS
    (u "/api/place") cache now net
  = (App.mkCache now (Some rows), answer) /\
  Handler.do_GET REG_API_URL TARGET_NAME TARGET_FORM CACHE_TTL_SECONDS
    (u "/api/place") (App.mkCache now (Some rows)) later net'
  = (App.mkCache now (Some rows), answer).
Proof.
  intros Hstale Hd Hc Hlater answer. unfold Handler.do_GET.
  change (str_eqb (u "/api/place") (u "/") || startswith (u "/api/place") (u "/?"))
    with false.
  change (str_eqb (u "/api/place") (u "/api/place")) with true. cbv iota.
  unfold App._fetch_data. rewrite Hstale, Hd.
  unfold App.fresh. cbn [App.data App.fetched_at App.get_data].
  rewrite Hlater. simpl bind. rewrite Hc. split; reflexivity.
Qed.

Lemma failing_feed_is_cached_witness :
  Handler.do_GET (u "https://reg.example/feed.json") (u "X") 1 30
    (u "/api/place") App.empty_cache 1000
    (App.Response 200 (Some (App.JList huge_score_rows)))
  = (App.mkCache 1000 (Some huge_score_rows),
     Handler._send 500 (Handler.ErrorPayload OverflowError)
       (u "application/json; charset=utf-8")) /\
  Handler.do_GET (u "https://reg.example/feed.json") (u "X") 1 30
    (u "/api/place") (App.mkCache 1000 (Some huge_score_rows)) 1010
    (App.Response 200 (Some (App.JList example_rows)))
  = (App.mkCache 1000 (Some huge_score_rows),
     Handler._send 500 (Handler.ErrorPayload OverflowError)
       (u "application/json; charset=utf-8")).
Proof.
  apply (failing_feed_is_cached (u "https://reg.example/feed.json") (u "X")
           1 30 App.empty_cache 1000 1010
           (App.Response 200 (Some (App.JList huge_score_rows)))
           (App.Response 200 (Some (App.JList example_rows)))
           huge_score_rows OverflowError).
  - reflexivity.
  - reflexivity.
  - vm_compute. reflexivity.
  - vm_compute. reflexivity.
Defined.

Lemma str_eqb_refl (a : str) : str_eqb a a = true.
Proof. apply str_eqb_eq. reflexivity. Qed.

(** X14: only the exact path [/api/place] reaches the cache and the
    network.  Any other path is answered from the path alone: the page
    (200) for [/] and for paths that begin with [/?], and 404 for every
    other one, a query string after [/api/place] included; the cache is
    left as it is. *)
Theorem only_api_place_fetches (REG_API_URL TARGET_NAME : str)
  (TARGET_FORM CACHE_TTL_SECONDS : Z) (path : str)
  (cache : App.Cache) (now : float) (net : App.http) :
  path <> u "/api/place" ->
  Handler.do_GET REG_API_URL TARGET_NAME TARGET_FORM CACHE_TTL_SECONDS
    path cache now net
  = (cache,
     if str_eqb path (u "/") || startswith path (u "/?")
     then Handler._send 200 Handler.IndexHtml (u "text/html; charset=utf-8")
     else Handler._send 404 Handler.NotFoundText
            (u "text/plain; charset=utf-8")).
Proof.
  intros Hp. unfold Handler.do_GET.
  destruct (str_eqb path (u "/") || startswith path (u "/?")); [reflexivity|].
  destruct (str_eqb path (u "/api/place")) eqn:E; [|reflexivity].
  apply str_eqb_eq in E. contradiction.
Qed.

Lemma only_api_place_fetches_witness :
  Handler.do_GET (u "https://reg.example/feed.json") (u "C") 1 30
    (u "/api/place?form=1") App.empty_cache 1000
    (App.Response 200 (Some (App.JList example_rows)))
  = (App.empty_cache,
     Handler._send 404 Handler.NotFoundText (u "text/plain; charset=utf-8")).
Proof.
  apply (only_api_place_fetches (u "https://reg.example/feed.json") (u "C") 1 30
           (u "/api/place?form=1") App.empty_cache 1000
           (App.Response 200 (Some (App.JList example_rows)))).
  vm_compute. discriminate.
Defined.
